(** * Knee CT bone segmentation: segmentation.py, analysis.py, the pipeline
      of main.py and the slices and samples of visualization.py, embedded
      and verified.

    The arrays of the program are numpy arrays.  A three-dimensional array is
    modelled by its shape and its contents as a function of the index; the
    enumeration of the indices in C order (last axis fastest) is kept where
    the program depends on it ([np.where], boolean-mask assignment from a
    vector, reductions).  Floating-point values are IEEE binary64 numbers,
    Rocq's primitive [float].  Label volumes hold the labels as integers: the
    program only ever tests a label with [== 1] and [== 2] and writes [0], [1]
    and [2]. *)

From Stdlib Require Import ZArith List Bool Lia Floats Sorted.
Import ListNotations.

Set Warnings "-inexact-float".

Open Scope Z_scope.

(** ** Python outcomes: a returned value or a raised exception *)

Inductive exn : Type :=
| ValueError
| OverflowError
| IndexError
| ZeroDivisionError.

Inductive result (A : Type) : Type :=
| Ok (a : A)
| Raise (e : exn).

Arguments Ok {A} a.
Arguments Raise {A} e.

Definition bind {A B : Type} (r : result A) (f : A -> result B) : result B :=
  match r with
  | Ok a => f a
  | Raise e => Raise e
  end.

Notation "x <- r ;; k" := (bind r (fun x => k))
  (at level 61, r at next level, right associativity).

(** ** binary64 helpers *)

Module Float64.

(** An index (a non-negative int64) converted to float64, as numpy does when
    an integer array meets a float array. *)
Definition of_int (i : Z) : float := PrimFloat.of_uint63 (Uint63.of_Z i).

(** Python's [int(x)] on a float: truncation toward zero; [ValueError] on a
    NaN and [OverflowError] on an infinity. *)
Definition int_trunc (x : float) : result Z :=
  match Prim2SF x with
  | S754_zero _ => Ok 0
  | S754_finite s m e =>
      let mag := if 0 <=? e then Z.pos m * 2 ^ e else Z.pos m / 2 ^ (- e) in
      Ok (if s then - mag else mag)
  | S754_infinity _ => Raise OverflowError
  | S754_nan => Raise ValueError
  end.

(** [int(np.ceil(x))]: the ceiling of a finite float is an integer that the
    format holds exactly, so the composition is the integer ceiling of the
    value of [x]. *)
Definition int_ceil (x : float) : result Z :=
  match Prim2SF x with
  | S754_zero _ => Ok 0
  | S754_finite s m e =>
      Ok (if 0 <=? e then (if s then - (Z.pos m * 2 ^ e) else Z.pos m * 2 ^ e)
          else if s then - (Z.pos m / 2 ^ (- e))
          else (Z.pos m + 2 ^ (- e) - 1) / 2 ^ (- e))
  | S754_infinity _ => Raise OverflowError
  | S754_nan => Raise ValueError
  end.

(** Python's two-argument [min] and [max]: the first argument is kept unless
    the second is strictly better. *)
Definition py_min (a b : float) : float := if PrimFloat.ltb b a then b else a.
Definition py_max (a b : float) : float := if PrimFloat.ltb a b then b else a.

Definition is_nan (x : float) : bool := negb (PrimFloat.eqb x x).

End Float64.

(** ** numpy arrays *)

Module Numpy.

Definition index : Type := (Z * Z * Z)%type.
Definition shape3 : Type := (Z * Z * Z)%type.

Record ndarray (A : Type) : Type := mk_ndarray {
  shape : shape3;
  data : index -> A
}.

Arguments mk_ndarray {A} shape data.
Arguments shape {A} n.
Arguments data {A} n p.

Definition in_range (n i : Z) : bool := (0 <=? i) && (i <? n).

Definition in_bounds (sh : shape3) (p : index) : bool :=
  let '(nx, ny, nz) := sh in
  let '(i, j, k) := p in
  in_range nx i && in_range ny j && in_range nz k.

Definition index_eqb (p q : index) : bool :=
  let '(i, j, k) := p in
  let '(i', j', k') := q in
  (i =? i') && (j =? j') && (k =? k').

Definition shape_eqb (s t : shape3) : bool := index_eqb s t.

(** [range(n)] *)
Definition zrange (n : Z) : list Z := map Z.of_nat (seq 0 (Z.to_nat n)).

(** [range(a, b)] *)
Definition range (a b : Z) : list Z := map (fun d => a + d) (zrange (b - a)).

(** All indices of an array of the given shape, in C order. *)
Definition ndindex (sh : shape3) : list index :=
  let '(nx, ny, nz) := sh in
  flat_map (fun i =>
    flat_map (fun j => map (fun k => (i, j, k)) (zrange nz)) (zrange ny))
    (zrange nx).

(** Two arrays are equal as numpy arrays: same shape, same contents. *)
Definition array_equal {A : Type} (a b : ndarray A) : Prop :=
  shape a = shape b /\
  forall p, in_bounds (shape a) p = true -> data a p = data b p.

Definition array_equalb (a b : ndarray Z) : bool :=
  shape_eqb (shape a) (shape b) &&
  forallb (fun p => data a p =? data b p) (ndindex (shape a)).

(** [np.zeros_like(a)] *)
Definition zeros_like {A : Type} (a : ndarray A) : ndarray Z :=
  mk_ndarray (shape a) (fun _ => 0).

(** [np.zeros_like(a, dtype=bool)] *)
Definition zeros_like_bool {A : Type} (a : ndarray A) : ndarray bool :=
  mk_ndarray (shape a) (fun _ => false).

(** [a == v] *)
Definition eq_scalar (a : ndarray Z) (v : Z) : ndarray bool :=
  mk_ndarray (shape a) (fun p => data a p =? v).

(** [a & b], [a | b], [~a] on boolean arrays of one shape *)
Definition mask_and (a b : ndarray bool) : ndarray bool :=
  mk_ndarray (shape a) (fun p => data a p && data b p).

Definition mask_or (a b : ndarray bool) : ndarray bool :=
  mk_ndarray (shape a) (fun p => data a p || data b p).

Definition mask_not (a : ndarray bool) : ndarray bool :=
  mk_ndarray (shape a) (fun p => negb (data a p)).

(** [a[mask] = v] *)
Definition assign_where {A : Type} (a : ndarray A) (mask : ndarray bool) (v : A)
  : ndarray A :=
  mk_ndarray (shape a) (fun p => if data mask p then v else data a p).

(** [a[mask] = b[mask]] *)
Definition assign_where_from {A : Type} (a : ndarray A) (mask : ndarray bool)
  (b : ndarray A) : ndarray A :=
  mk_ndarray (shape a) (fun p => if data mask p then data b p else data a p).

(** [np.where(mask)]: the indices of the true entries, in C order. *)
Definition np_where (mask : ndarray bool) : list index :=
  filter (data mask) (ndindex (shape mask)).

(** [np.sum(mask)] of a boolean array. *)
Definition count_nonzero (mask : ndarray bool) : Z :=
  Z.of_nat (length (np_where mask)).

(** The number of true entries of [mask] that come before [p] in the list. *)
Fixpoint rank_in (l : list index) (mask : index -> bool) (p : index) : nat :=
  match l with
  | [] => O
  | q :: l' =>
      if index_eqb q p then O
      else ((if mask q then 1 else 0) + rank_in l' mask p)%nat
  end.

(** [a[mask] = vals] for a vector [vals] with one entry per true entry of
    [mask]: the entries are consumed in C order. *)
Definition scatter (a : ndarray bool) (mask : ndarray bool) (vals : list bool)
  : ndarray bool :=
  mk_ndarray (shape a)
    (fun p => if data mask p
              then nth (rank_in (ndindex (shape mask)) (data mask) p) vals false
              else data a p).

(** Two-dimensional arrays: the slices [data[:, i, :]]. *)
Record array2 (A : Type) : Type := mk_array2 {
  shape2 : Z * Z;
  data2 : Z * Z -> A
}.

Arguments mk_array2 {A} shape2 data2.
Arguments shape2 {A} a.
Arguments data2 {A} a p.

Definition ndindex2 (sh : Z * Z) : list (Z * Z) :=
  let '(nr, nc) := sh in
  flat_map (fun r => map (fun c => (r, c)) (zrange nc)) (zrange nr).

(** Python index normalisation on an axis of length [n]. *)
Definition norm_index (n i : Z) : result Z :=
  if in_range n i then Ok i
  else if (- n <=? i) && (i <? 0) then Ok (n + i)
  else Raise IndexError.

(** [a[:, i, :]] *)
Definition slice_y {A : Type} (a : ndarray A) (i : Z) : result (array2 A) :=
  let '(nx, ny, nz) := shape a in
  j <- norm_index ny i ;;
  Ok (mk_array2 (nx, nz) (fun rc => data a (fst rc, j, snd rc))).

(** [a[i, :, :]] *)
Definition slice_x {A : Type} (a : ndarray A) (i : Z) : result (array2 A) :=
  let '(nx, ny, nz) := shape a in
  j <- norm_index nx i ;;
  Ok (mk_array2 (ny, nz) (fun rc => data a (j, fst rc, snd rc))).

(** [a[:, :, i]] *)
Definition slice_z {A : Type} (a : ndarray A) (i : Z) : result (array2 A) :=
  let '(nx, ny, nz) := shape a in
  j <- norm_index nz i ;;
  Ok (mk_array2 (nx, ny) (fun rc => data a (fst rc, snd rc, j))).

(** [a[:, i, :][mask] = v]: the slice is a view, the write lands in [a]. *)
Definition assign_slice_where {A : Type} (a : ndarray A) (i : Z)
  (mask : array2 bool) (v : A) : result (ndarray A) :=
  let '(nx, ny, nz) := shape a in
  j <- norm_index ny i ;;
  Ok (mk_ndarray (shape a)
        (fun p => let '(x, y, z) := p in
                  if (y =? j) && data2 mask (x, z) then v else data a p)).

(** The bounds of a slice [l[a:b]] on a sequence of length [n]. *)
Definition slice_bound (n k : Z) : Z :=
  if k <? 0 then Z.max 0 (n + k) else Z.min k n.

(** [l[a:b]] *)
Definition py_slice {A : Type} (l : list A) (a b : Z) : list A :=
  let n := Z.of_nat (length l) in
  let s := slice_bound n a in
  let e := slice_bound n b in
  firstn (Z.to_nat (e - s)) (skipn (Z.to_nat s) l).

(** [a.T] *)
Definition transpose {A : Type} (a : array2 A) : array2 A :=
  mk_array2 (snd (shape2 a), fst (shape2 a)) (fun rc => data2 a (snd rc, fst rc)).

(** [m[:, jp:] = False] and [m[:, :jp] = False] *)
Definition clear_cols_from (m : array2 bool) (jp : Z) : array2 bool :=
  let s := slice_bound (snd (shape2 m)) jp in
  mk_array2 (shape2 m) (fun rc => if s <=? snd rc then false else data2 m rc).

Definition clear_cols_before (m : array2 bool) (jp : Z) : array2 bool :=
  let e := slice_bound (snd (shape2 m)) jp in
  mk_array2 (shape2 m) (fun rc => if snd rc <? e then false else data2 m rc).

(** [a > t] on a float slice. *)
Definition gt_scalar (a : array2 float) (t : float) : array2 bool :=
  mk_array2 (shape2 a) (fun rc => PrimFloat.ltb t (data2 a rc)).

(** [np.maximum] on two floats: a NaN on the left wins. *)
Definition maximum (a b : float) : float :=
  if PrimFloat.leb b a || Float64.is_nan a then a else b.

(** [np.max(a)]: [ValueError] on an empty array. *)
Definition max2 (a : array2 float) : result float :=
  match map (data2 a) (ndindex2 (shape2 a)) with
  | [] => Raise ValueError
  | x :: l => Ok (fold_left maximum l x)
  end.

(** [np.sum(m, axis=0)] of a boolean slice: one count per column. *)
Definition sum_axis0 (m : array2 bool) : list Z :=
  let '(nr, nc) := shape2 m in
  map (fun c => Z.of_nat (length (filter (fun r => data2 m (r, c)) (zrange nr))))
      (zrange nc).

(** [np.argmin] on integers: the first position of the least value. *)
Fixpoint argmin_from (best : Z) (besti : nat) (i : nat) (l : list Z) : nat :=
  match l with
  | [] => besti
  | x :: l' =>
      if x <? best then argmin_from x i (S i) l'
      else argmin_from best besti (S i) l'
  end.

Definition argmin (l : list Z) : nat :=
  match l with
  | [] => O
  | x :: l' => argmin_from x O 1%nat l'
  end.

(** [np.argmin] on floats: an entry replaces the current least one when it is
    not at or above it; the scan stops at the first NaN. *)
Fixpoint argmin_float_from (best : float) (besti : nat) (i : nat)
  (l : list float) : nat :=
  match l with
  | [] => besti
  | x :: l' =>
      if Float64.is_nan best then besti
      else if negb (PrimFloat.leb best x) then argmin_float_from x i (S i) l'
      else argmin_float_from best besti (S i) l'
  end.

Definition argmin_float (l : list float) : nat :=
  match l with
  | [] => O
  | x :: l' => argmin_float_from x O 1%nat l'
  end.

(** numpy's pairwise summation of a contiguous float64 vector: fewer than
    eight entries are added left to right, up to 128 entries go through
    eight running sums, longer vectors are split in two.  The reduction
    starts from the identity of the addition (the sign of a zero sum is not
    tracked). *)
Definition sum_seq (acc : float) (l : list float) : float :=
  fold_left PrimFloat.add l acc.

Fixpoint add_blocks (r : list float) (l : list float) (blocks : nat)
  : list float * list float :=
  match blocks with
  | O => (r, l)
  | S b =>
      add_blocks (map (fun xy => PrimFloat.add (fst xy) (snd xy))
                      (combine r (firstn 8 l)))
                 (skipn 8 l) b
  end.

Definition sum_unrolled (l : list float) : float :=
  let n := length l in
  let '(r, rest) := add_blocks (firstn 8 l) (skipn 8 l) ((n - n mod 8) / 8 - 1)%nat in
  let r_ k := nth k r 0%float in
  let res :=
    (((r_ 0%nat + r_ 1%nat) + (r_ 2%nat + r_ 3%nat)) +
     ((r_ 4%nat + r_ 5%nat) + (r_ 6%nat + r_ 7%nat)))%float in
  sum_seq res rest.

Fixpoint pairwise_sum (fuel : nat) (l : list float) : float :=
  let n := length l in
  if (n <? 8)%nat then sum_seq 0%float l
  else if (n <=? 128)%nat then sum_unrolled l
  else
    match fuel with
    | O => sum_unrolled l (* not reached: the fuel is the length *)
    | S fuel' =>
        let n2 := (n / 2 - (n / 2) mod 8)%nat in
        (pairwise_sum fuel' (firstn n2 l) + pairwise_sum fuel' (skipn n2 l))%float
    end.

(** [np.sum] and [np.mean] of a float64 vector. *)
Definition sum (l : list float) : float :=
  (0 + pairwise_sum (length l) l)%float.

Definition mean (l : list float) : float :=
  (sum l / Float64.of_int (Z.of_nat (length l)))%float.

End Numpy.

Import Numpy.

(** ** The routines of scikit-image and scipy that stay abstract

    Connected-component pruning, hole filling, binary closing and Gaussian
    smoothing are library code.  The program is verified for every
    implementation of them.  The smoothed profile has the integer element
    type of the column counts it is computed from. *)

Class ImageLib : Type := {
  (** [morphology.remove_small_objects(mask, min_size)] on a slice *)
  remove_small_objects2 : array2 bool -> Z -> array2 bool;
  (** [morphology.binary_closing(mask, morphology.disk(r))] *)
  binary_closing_disk : array2 bool -> Z -> array2 bool;
  (** [ndimage.gaussian_filter1d(profile, sigma)] *)
  gaussian_filter1d : list Z -> Z -> list Z;
  (** [morphology.remove_small_objects(mask, min_size)] on a volume *)
  remove_small_objects : ndarray bool -> Z -> ndarray bool;
  (** [ndimage.binary_fill_holes(mask)] *)
  binary_fill_holes : ndarray bool -> ndarray bool;
  (** [ndimage.binary_closing(mask, structure=np.ones((k, k, k)))] *)
  binary_closing : ndarray bool -> Z -> ndarray bool
}.

(** ** scipy.ndimage.binary_dilation with a full box as structuring element *)

Module Ndimage.

(** The offsets of a structuring element of [k] cells along one axis,
    relative to its centre [k // 2]. *)
Definition box_offsets (k : Z) : list Z := map (fun j => j - k / 2) (zrange k).

(** [ndimage.binary_dilation(input, structure=np.ones(ks))]: a voxel is set
    when the box, centred on it and reflected, meets a set voxel of the
    input; outside the array the input counts as unset. *)
Definition binary_dilation (input : ndarray bool) (ks : Z * Z * Z)
  : ndarray bool :=
  let '(kx, ky, kz) := ks in
  mk_ndarray (shape input)
    (fun p =>
       let '(x, y, z) := p in
       existsb (fun dx =>
         existsb (fun dy =>
           existsb (fun dz =>
             let q := (x - dx, y - dy, z - dz) in
             in_bounds (shape input) q && data input q)
           (box_offsets kz))
         (box_offsets ky))
       (box_offsets kx)).

End Ndimage.

(** ** numpy's global random generator *)

Record RandomState : Type := mk_random {
  stream : nat -> float;
  cursor : nat
}.

(** [np.random.random(n)]: the next [n] draws, each in [0, 1). *)
Definition random_sample (n : nat) (g : RandomState) : list float * RandomState :=
  (map (fun k => stream g (cursor g + k)%nat) (seq 0 n),
   mk_random (stream g) (cursor g + n)).

(** ** segmentation.py *)

Module Segmentation.

Section WithLibrary.

Context {lib : ImageLib}.

Definition create_bone_mask (slice_data : array2 float) (bone_threshold : float)
  (min_size : Z) : array2 bool :=
  let bone_mask := gt_scalar slice_data bone_threshold in
  let bone_mask := remove_small_objects2 bone_mask min_size in
  binary_closing_disk bone_mask 2.

Definition item (l : list Z) (j : Z) : Z := nth (Z.to_nat j) l 0.

Definition len {A : Type} (l : list A) : Z := Z.of_nat (length l).

(** Lines 17 to 29 of [find_joint_position]: the joint row from the smoothed
    profile. *)
Definition joint_from_profile (smooth_profile : list Z) (height : Z) : Z :=
  let middle_start := height / 3 in
  let middle_end := 2 * height / 3 in
  let middle_profile := py_slice smooth_profile middle_start middle_end in
  if 5 <? len middle_profile then
    let min_indices :=
      filter (fun j =>
                (item middle_profile j <? item middle_profile (j - 1)) &&
                (item middle_profile j <? item middle_profile (j + 1)))
             (range 2 (len middle_profile - 2)) in
    match min_indices with
    | [] => height / 2
    | _ :: _ =>
        let joint_idx :=
          nth (argmin (map (item middle_profile) min_indices)) min_indices 0 in
        middle_start + joint_idx
    end
  else height / 2.

Definition find_joint_position (bone_mask : array2 bool) (height : Z) : Z :=
  let vertical_profile := sum_axis0 bone_mask in
  let smooth_profile := gaussian_filter1d vertical_profile 5 in
  joint_from_profile smooth_profile height.

(** The pair returned by [segment_slice]: [(None, None)] or two masks. *)
Definition slice_masks : Type :=
  (option (array2 bool) * option (array2 bool))%type.

Definition segment_slice (slice_data : array2 float) (bone_threshold : float)
  : result slice_masks :=
  let height := snd (shape2 slice_data) in
  let bone_mask := create_bone_mask slice_data bone_threshold 50 in
  m <- max2 slice_data ;;
  if PrimFloat.ltb m bone_threshold then Ok (None, None)
  else
    let joint_position := find_joint_position bone_mask height in
    let femur_mask := clear_cols_from bone_mask joint_position in
    let femur_mask := remove_small_objects2 femur_mask 100 in
    let tibia_mask := clear_cols_before bone_mask joint_position in
    let tibia_mask := remove_small_objects2 tibia_mask 100 in
    Ok (Some femur_mask, Some tibia_mask).

Definition apply_3d_postprocessing (segmentation_volume : ndarray Z)
  : ndarray Z :=
  let tibia_seg := eq_scalar segmentation_volume 1 in
  let femur_seg := eq_scalar segmentation_volume 2 in
  let tibia_seg := binary_fill_holes tibia_seg in
  let femur_seg := binary_fill_holes femur_seg in
  let tibia_seg := binary_closing tibia_seg 3 in
  let femur_seg := binary_closing femur_seg 3 in
  let tibia_seg := remove_small_objects tibia_seg 1000 in
  let femur_seg := remove_small_objects femur_seg 1000 in
  let result := zeros_like segmentation_volume in
  let result := assign_where result tibia_seg 1 in
  assign_where result femur_seg 2.

(** One turn of the loop of [fallback_segmentation]. *)
Definition fallback_slice (data : ndarray float) (segmentation_volume : ndarray Z)
  (i : Z) : result (ndarray Z) :=
  slice_data <- slice_y data i ;;
  let bone_mask := gt_scalar slice_data 150 in
  let height := snd (shape2 slice_data) in
  let mid_point := height / 2 in
  let femur_mask := clear_cols_from bone_mask mid_point in
  let femur_mask := remove_small_objects2 femur_mask 50 in
  let tibia_mask := clear_cols_before bone_mask mid_point in
  let tibia_mask := remove_small_objects2 tibia_mask 50 in
  vol <- assign_slice_where segmentation_volume i tibia_mask 1 ;;
  assign_slice_where vol i femur_mask 2.

Definition fallback_segmentation (data : ndarray float)
  (start_slice end_slice : Z) : result (ndarray Z) :=
  segmentation_volume <-
    fold_left (fun acc i => vol <- acc ;; fallback_slice data vol i)
              (range start_slice end_slice) (Ok (zeros_like data)) ;;
  let tibia_seg := binary_closing (eq_scalar segmentation_volume 1) 5 in
  let femur_seg := binary_closing (eq_scalar segmentation_volume 2) 5 in
  let tibia_seg := binary_fill_holes tibia_seg in
  let femur_seg := binary_fill_holes femur_seg in
  let tibia_seg := remove_small_objects tibia_seg 1000 in
  let femur_seg := remove_small_objects femur_seg 1000 in
  let result := zeros_like data in
  let result := assign_where result tibia_seg 1 in
  Ok (assign_where result femur_seg 2).

End WithLibrary.

Definition voxel_spacing : Type := (float * float * float)%type.

(** [max(1, int(np.ceil(expansion_mm / vs)))], for a spacing [vs] that is an
    entry of a numpy array of float64, as [load_nifti_image] returns it: the
    division is numpy's, and a spacing of zero gives an infinity or a NaN. *)
Definition kernel_size (expansion_mm vs : float) : result Z :=
  ks <- Float64.int_ceil (expansion_mm / vs)%float ;;
  Ok (Z.max 1 ks).

Definition kernel_sizes (voxel_sizes : voxel_spacing) (expansion_mm : float)
  : result (Z * Z * Z) :=
  let '(vx, vy, vz) := voxel_sizes in
  kx <- kernel_size expansion_mm vx ;;
  ky <- kernel_size expansion_mm vy ;;
  kz <- kernel_size expansion_mm vz ;;
  Ok (kx, ky, kz).

(** Lines 75 to 89 of [expand_segmentation]. *)
Definition expand_with_kernel (segmentation_volume : ndarray Z)
  (ks : Z * Z * Z) : ndarray Z :=
  let tibia_seg := eq_scalar segmentation_volume 1 in
  let femur_seg := eq_scalar segmentation_volume 2 in
  let tibia_expanded := Ndimage.binary_dilation tibia_seg ks in
  let femur_expanded := Ndimage.binary_dilation femur_seg ks in
  let overlap := mask_and tibia_expanded femur_expanded in
  let tibia_expanded := assign_where_from tibia_expanded overlap tibia_seg in
  let femur_expanded := assign_where_from femur_expanded overlap femur_seg in
  let result := zeros_like segmentation_volume in
  let result := assign_where result tibia_expanded 1 in
  assign_where result femur_expanded 2.

Definition expand_segmentation (segmentation_volume : ndarray Z)
  (voxel_sizes : voxel_spacing) (expansion_mm : float) : result (ndarray Z) :=
  ks <- kernel_sizes voxel_sizes expansion_mm ;;
  Ok (expand_with_kernel segmentation_volume ks).






(** One turn of the loop over the labels in [generate_random_mask]. *)
Definition randomize_label (original_segmentation expanded_segmentation : ndarray Z)
  (random_value : float) (acc : ndarray Z * RandomState) (label : Z)
  : ndarray Z * RandomState :=
  let '(result, g) := acc in
  let original_label_mask := eq_scalar original_segmentation label in
  let expanded_label_mask := eq_scalar expanded_segmentation label in
  let expansion_region :=
    mask_and expanded_label_mask (mask_not original_label_mask) in
  let expansion_size := length (np_where expansion_region) in
  if (0 <? expansion_size)%nat then
    let '(draws, g') := random_sample expansion_size g in
    let random_mask := map (fun r => PrimFloat.ltb r random_value) draws in
    let temp_expansion := zeros_like_bool expansion_region in
    let temp_expansion := scatter temp_expansion expansion_region random_mask in
    (assign_where result (mask_or original_label_mask temp_expansion) label, g')
  else (assign_where result original_label_mask label, g).

(** [generate_random_mask] on two volumes of one shape, as the pipeline
    calls it (the expanded volume has the shape of the original).  Volumes
    of different shapes go through numpy's broadcasting rules, under which
    the call can return or raise; they are outside this model, which answers
    [IndexError] for them, and the properties below that depend on it state
    that the two volumes have one shape. *)
Definition generate_random_mask (original_segmentation expanded_segmentation : ndarray Z)
  (random_value : float) (g : RandomState) : result (ndarray Z * RandomState) :=
  if shape_eqb (shape original_segmentation) (shape expanded_segmentation) then
    let random_value := Float64.py_max 0 (Float64.py_min 1 random_value) in
    Ok (fold_left
          (randomize_label original_segmentation expanded_segmentation random_value)
          [1; 2] (zeros_like original_segmentation, g))
  else Raise IndexError.

End Segmentation.

(** ** analysis.py *)

Module Analysis.

Import Segmentation.

Definition point_mm : Type := (float * float * float)%type.

Definition px (pt : point_mm) : float := fst (fst pt).
Definition pz (pt : point_mm) : float := snd pt.

(** A row of [tibia_points]: each index times the spacing of its axis. *)
Definition to_mm (voxel_sizes : voxel_spacing) (p : index) : point_mm :=
  let '(vx, vy, vz) := voxel_sizes in
  let '(i, j, k) := p in
  (Float64.of_int i * vx, Float64.of_int j * vy, Float64.of_int k * vz)%float.

(** [(int(pt[0] / vs[0]), int(pt[1] / vs[1]), int(pt[2] / vs[2]))] *)
Definition to_voxel (voxel_sizes : voxel_spacing) (pt : point_mm)
  : result index :=
  let '(vx, vy, vz) := voxel_sizes in
  let '(x, y, z) := pt in
  i <- Float64.int_trunc (x / vx)%float ;;
  j <- Float64.int_trunc (y / vy)%float ;;
  k <- Float64.int_trunc (z / vz)%float ;;
  Ok (i, j, k).

(** The row with the least Z coordinate, [None] when there is no row. *)
Definition lowest (points : list point_mm) : option point_mm :=
  match points with
  | [] => None
  | pt :: _ => Some (nth (argmin_float (map pz points)) points pt)
  end.

Definition to_voxel_opt (voxel_sizes : voxel_spacing) (pt : option point_mm)
  : result (option index) :=
  match pt with
  | Some pt => v <- to_voxel voxel_sizes pt ;; Ok (Some v)
  | None => Ok None
  end.

Definition tibia_points (segmentation_volume : ndarray Z)
  (voxel_sizes : voxel_spacing) : list point_mm :=
  map (to_mm voxel_sizes) (np_where (eq_scalar segmentation_volume 1)).

Definition center_x (segmentation_volume : ndarray Z)
  (voxel_sizes : voxel_spacing) : float :=
  mean (map px (tibia_points segmentation_volume voxel_sizes)).

Definition landmarks : Type :=
  (option point_mm * option point_mm * option index * option index)%type.

Definition find_tibia_lowest_points (segmentation_volume : ndarray Z)
  (voxel_sizes : voxel_spacing) : result landmarks :=
  let tibia_mask := eq_scalar segmentation_volume 1 in
  if count_nonzero tibia_mask =? 0 then Ok (None, None, None, None)
  else
    let tibia_points := tibia_points segmentation_volume voxel_sizes in
    let center_x := center_x segmentation_volume voxel_sizes in
    let lateral_points :=
      filter (fun pt => PrimFloat.ltb (px pt) center_x) tibia_points in
    let medial_points :=
      filter (fun pt => PrimFloat.leb center_x (px pt)) tibia_points in
    let lateral_lowest := lowest lateral_points in
    let medial_lowest := lowest medial_points in
    lateral_voxel <- to_voxel_opt voxel_sizes lateral_lowest ;;
    medial_voxel <- to_voxel_opt voxel_sizes medial_lowest ;;
    Ok (medial_lowest, lateral_lowest, medial_voxel, lateral_voxel).

End Analysis.

(** ** main.py: the slice loop of [segment_knee] and the mask variants *)

Module Main.

Import Segmentation.

Section WithLibrary.

Context {lib : ImageLib}.

(** Lines 44 to 46: the two masks are painted only when both are there. *)
Definition paint_slice (segmentation_volume : ndarray Z) (i : Z)
  (masks : slice_masks) : result (ndarray Z) :=
  match masks with
  | (Some femur_mask, Some tibia_mask) =>
      vol <- assign_slice_where segmentation_volume i tibia_mask 1 ;;
      assign_slice_where vol i femur_mask 2
  | _ => Ok segmentation_volume
  end.

(** One turn of the loop of lines 42 to 46. *)
Definition segment_slice_into (data : ndarray float)
  (segmentation_volume : ndarray Z) (i : Z) : result (ndarray Z) :=
  slice_data <- slice_y data i ;;
  masks <- segment_slice slice_data 200 ;;
  paint_slice segmentation_volume i masks.

Definition segment_slices (data : ndarray float) (start_slice end_slice : Z)
  : result (ndarray Z) :=
  fold_left (fun acc i => vol <- acc ;; segment_slice_into data vol i)
            (range start_slice end_slice) (Ok (zeros_like data)).

Record mask_variants : Type := mk_variants {
  original : ndarray Z;
  expanded_2mm : ndarray Z;
  expanded_4mm : ndarray Z;
  random_1 : ndarray Z;
  random_2 : ndarray Z
}.

(** Lines 37 to 72 of [segment_knee], without the file output. *)
Definition segment_knee (data : ndarray float) (voxel_sizes : voxel_spacing)
  (g : RandomState) : result (mask_variants * RandomState) :=
  let ny := snd (fst (shape data)) in
  start_slice <- Float64.int_trunc (Float64.of_int ny * 0.2)%float ;;
  end_slice <- Float64.int_trunc (Float64.of_int ny * 0.8)%float ;;
  segmentation_volume <- segment_slices data start_slice end_slice ;;
  let segmentation_volume := apply_3d_postprocessing segmentation_volume in
  let tibia_volume := count_nonzero (eq_scalar segmentation_volume 1) in
  let femur_volume := count_nonzero (eq_scalar segmentation_volume 2) in
  original_segmentation <-
    (if (tibia_volume <? 1000) || (femur_volume <? 1000)
     then fallback_segmentation data start_slice end_slice
     else Ok segmentation_volume) ;;
  expanded_2mm <- expand_segmentation original_segmentation voxel_sizes 2 ;;
  expanded_4mm <- expand_segmentation original_segmentation voxel_sizes 4 ;;
  r1 <- generate_random_mask original_segmentation expanded_2mm 0.65 g ;;
  r2 <- generate_random_mask original_segmentation expanded_4mm 0.40 (snd r1) ;;
  Ok (mk_variants original_segmentation expanded_2mm expanded_4mm
        (fst r1) (fst r2), snd r2).

End WithLibrary.

End Main.

(** ** main.py: the landmarks of the five masks *)

Module Landmarks.

Import Segmentation Analysis Main.

(** The keys of the dictionary [masks], in the order of insertion. *)
Inductive mask_name : Type :=
| Original
| Expanded_2mm
| Expanded_4mm
| Random_1
| Random_2.

(** Lines 75 to 81 of [segment_knee]: the dictionary [masks]. *)
Definition masks (v : mask_variants) : list (mask_name * ndarray Z) :=
  [(Original, original v); (Expanded_2mm, expanded_2mm v);
   (Expanded_4mm, expanded_4mm v); (Random_1, random_1 v);
   (Random_2, random_2 v)].

(** Lines 82 to 91 of [segment_knee]: the loop that fills the dictionary
    [tibia_points], one entry per mask, in the order of [masks]. *)
Definition tibia_points_of_masks (v : mask_variants)
  (voxel_sizes : voxel_spacing) : result (list (mask_name * landmarks)) :=
  fold_left
    (fun acc entry =>
       tibia_points <- acc ;;
       points <- find_tibia_lowest_points (snd entry) voxel_sizes ;;
       Ok (tibia_points ++ [(fst entry, points)]))
    (masks v) (Ok []).

End Landmarks.

(** ** visualization.py: what the plots are computed from *)

Module Visualization.

(** Lines 6 and 7 of [display_coronal_slice]: the middle coronal slice,
    transposed. *)
Definition mid_coronal_slice {A : Type} (data : ndarray A) : result (array2 A) :=
  let coronal_idx := snd (fst (shape data)) / 2 in
  coronal_slice <- slice_y data coronal_idx ;;
  Ok (transpose coronal_slice).

(** [l[::k]] for a positive step: the entries at the positions 0, k, 2k, ...;
    [c] counts the entries to skip before the next one is taken. *)
Fixpoint stride_from {A : Type} (k c : nat) (l : list A) : list A :=
  match l with
  | [] => []
  | x :: l' =>
      match c with
      | O => x :: stride_from k (k - 1) l'
      | S c' => stride_from k c' l'
      end
  end.

Definition stride {A : Type} (k : nat) (l : list A) : list A := stride_from k 0 l.

(** Lines 234 to 239 of [visualize_tibia_points]: the tibia voxels that are
    handed to the 3-D scatter plot, when the function gets there. *)
Definition tibia_samples (segmentation_volume : ndarray Z) : list index :=
  let tibia_coords := np_where (eq_scalar segmentation_volume 1) in
  let sample_rate := Z.max 1 (Z.of_nat (length tibia_coords) / 500) in
  stride (Z.to_nat sample_rate) tibia_coords.

(** The three ways a call of [visualize_tibia_points] ends: it returns at
    once when a landmark is missing (lines 193 to 195); an exception raised
    inside the [try] block is caught and the plot is skipped (lines 256 to
    259); otherwise the figure is drawn from the three slices through the
    landmarks, the landmarks and the sampled tibia voxels. *)
Inductive tibia_plot (A : Type) : Type :=
| Missing
| Skipped
| Drawn (sagittal coronal axial : array2 A) (tibia_medial tibia_lateral : index)
        (avg_y : Z) (samples : list index).

Arguments Missing {A}.
Arguments Skipped {A}.
Arguments Drawn {A} sagittal coronal axial tibia_medial tibia_lateral avg_y samples.

(** [visualize_tibia_points]: the indexing of the three slices is what can
    raise in the [try] block; the calls to matplotlib are taken to return. *)
Definition visualize_tibia_points {A : Type} (data : ndarray A)
  (segmentation_volume : ndarray Z)
  (tibia_medial_voxel tibia_lateral_voxel : option index) : tibia_plot A :=
  match tibia_medial_voxel, tibia_lateral_voxel with
  | Some tm, Some tl =>
      let '(tm_x, tm_y, tm_z) := tm in
      let '(tl_x, tl_y, tl_z) := tl in
      let avg_y := (tm_y + tl_y) / 2 in
      let images :=
        sagittal <- slice_x data tm_x ;;
        coronal <- slice_y data avg_y ;;
        axial <- slice_z data tm_z ;;
        Ok (transpose sagittal, transpose coronal, axial) in
      match images with
      | Ok (sagittal, coronal, axial) =>
          Drawn sagittal coronal axial tm tl avg_y
                (tibia_samples segmentation_volume)
      | Raise _ => Skipped
      end
  | _, _ => Missing
  end.

End Visualization.

(** A stand-in for the library routines that changes nothing, to run the
    program on small inputs: every component counts as large enough, nothing
    is filled, closed or smoothed. *)
Definition identity_lib : ImageLib := {|
  remove_small_objects2 := fun m _ => m;
  binary_closing_disk := fun m _ => m;
  gaussian_filter1d := fun profile _ => profile;
  remove_small_objects := fun m _ => m;
  binary_fill_holes := fun m => m;
  binary_closing := fun m _ => m
|}.

Import Segmentation Analysis Main Landmarks.

(** * The vocabulary of the claims and the inputs of the examples *)

(** A volume of the given shape, all background but for the listed voxels. *)
Definition volume_of (sh : shape3) (voxels : list (index * Z)) : ndarray Z :=
  mk_ndarray sh
    (fun p => match find (fun e => index_eqb (fst e) p) voxels with
              | Some e => snd e
              | None => 0
              end).

(** The label domain of a segmentation volume. *)
Definition is_label (v : Z) : Prop := v = 0 \/ v = 1 \/ v = 2.

(** A label volume: every voxel of the array holds a label. *)
Definition label_volume (v : ndarray Z) : Prop :=
  forall p, in_bounds (shape v) p = true -> is_label (data v p).

(** Every voxel holds one label, and the tibia and femur regions of the
    volume share no voxel. *)
Definition exclusive_labels (v : ndarray Z) : Prop :=
  forall p,
    is_label (data v p) /\
    data (eq_scalar v 1) p && data (eq_scalar v 2) p = false.

(** The first line of [generate_random_mask]:
    [max(0.0, min(1.0, random_value))]. *)
Definition clamp (random_value : float) : float :=
  Float64.py_max 0 (Float64.py_min 1 random_value).

(** The expansion ring of a label: [expansion_region]. *)
Definition ring (original expanded : ndarray Z) (label : Z) : ndarray bool :=
  mask_and (eq_scalar expanded label) (mask_not (eq_scalar original label)).

(** The entry of [temp_expansion] at a voxel. *)
Definition kept (original expanded : ndarray Z) (random_value : float)
  (g : RandomState) (label : Z) (p : index) : bool :=
  let region := ring original expanded label in
  data region p &&
  nth (rank_in (ndindex (shape region)) (data region) p)
      (map (fun r => PrimFloat.ltb r random_value)
           (fst (random_sample (length (np_where region)) g)))
      false.

(** A draw of the generator lies in [0, 1). *)
Definition unit_interval (r : float) : Prop :=
  PrimFloat.leb 0 r = true /\ PrimFloat.ltb r 1 = true.

(** Every draw of the generator lies in [0, 1), as [np.random.random]
    promises. *)
Definition uniform (g : RandomState) : Prop :=
  forall k, unit_interval (stream g k).

(** The generator as the first label leaves it. *)
Definition after_tibia (o e : ndarray Z) (rv : float) (g : RandomState)
  : RandomState :=
  snd (randomize_label o e rv (zeros_like o, g) 1).

(** The expanded volume holds every labelled voxel of the original under the
    same label. *)
Definition contains_labels (expanded original : ndarray Z) : Prop :=
  forall p, in_bounds (shape original) p = true ->
    (data original p = 1 -> data expanded p = 1) /\
    (data original p = 2 -> data expanded p = 2).

(** A voxel reached by the dilation of both labels. *)
Definition contested (seg : ndarray Z) (ks : Z * Z * Z) (p : index) : bool :=
  data (Ndimage.binary_dilation (eq_scalar seg 1) ks) p &&
  data (Ndimage.binary_dilation (eq_scalar seg 2) ks) p.

(** A generator whose every draw is one half. *)
Definition half_draws : RandomState := mk_random (fun _ => 0.5%float) 0.

(** A volume of one voxel, background. *)
Definition one_background_voxel : ndarray Z := volume_of (1, 1, 1) [].

(** A lone tibia voxel in the middle of a 3 x 3 x 3 volume, and its expansion
    by 2 mm at a spacing of (0.5, 0.5, 1) mm: a kernel of 4 x 4 x 2 voxels. *)
Definition centre_tibia : ndarray Z := volume_of (3, 3, 3) [((1, 1, 1), 1)].
Definition centre_tibia_2mm : ndarray Z := expand_with_kernel centre_tibia (4, 4, 2).

(** The window of the smoothed profile that the locator looks at. *)
Definition middle_profile (smooth_profile : list Z) (height : Z) : list Z :=
  py_slice smooth_profile (height / 3) (2 * height / 3).

(** An interior local minimum of the window: an index from 2 to [len - 3]
    whose value is strictly below both neighbours. *)
Definition candidate (mp : list Z) (j : Z) : Prop :=
  2 <= j <= len mp - 3 /\
  item mp j < item mp (j - 1) /\ item mp j < item mp (j + 1).

(** A smoothed profile of fourteen rows with a dip at row 6. *)
Definition dip_profile : list Z := [3; 3; 3; 3; 3; 3; 1; 3; 3; 3; 3; 3; 3; 3].

(** A slice of two rows and two columns with one intensity everywhere. *)
Definition constant_slice (v : float) : array2 float :=
  mk_array2 (2, 2) (fun _ => v).

(** The volume whose only slice is that slice. *)
Definition constant_volume (v : float) : ndarray float :=
  mk_ndarray (2, 1, 2) (fun _ => v).

(** Four voxels along X, the last one tibia. *)
Definition tibia_voxel_3 : ndarray Z := volume_of (4, 1, 1) [((3, 0, 0), 1)].

(** Three tibia voxels in the plane X = 1. *)
Definition three_tibia_same_x : ndarray Z :=
  volume_of (2, 3, 1) [((1, 0, 0), 1); ((1, 1, 0), 1); ((1, 2, 0), 1)].

(** The pruning routine of the library only clears entries of a mask. *)
Definition prunes_only (lib : ImageLib) : Prop :=
  forall m min_size rc,
    data2 (remove_small_objects2 m min_size) rc = true -> data2 m rc = true.

(** [q] lies in the box of [ks] voxels that the dilation places on [p]. *)
Definition within_box (ks : Z * Z * Z) (p q : index) : Prop :=
  let '(kx, ky, kz) := ks in
  let '(x, y, z) := p in
  let '(x', y', z') := q in
  (- (kx / 2) <= x - x' < kx - kx / 2) /\
  (- (ky / 2) <= y - y' < ky - ky / 2) /\
  (- (kz / 2) <= z - z' < kz - kz / 2).

(** Lines 21 to 25 of [find_tibia_lowest_points]: the two sides of the mean. *)
Definition lateral_points (seg : ndarray Z) (voxel_sizes : voxel_spacing)
  : list point_mm :=
  filter (fun pt => PrimFloat.ltb (px pt) (center_x seg voxel_sizes))
         (tibia_points seg voxel_sizes).

Definition medial_points (seg : ndarray Z) (voxel_sizes : voxel_spacing)
  : list point_mm :=
  filter (fun pt => PrimFloat.leb (center_x seg voxel_sizes) (px pt))
         (tibia_points seg voxel_sizes).

(** The number of voxels in the expansion ring of a label. *)
Definition ring_size (original expanded : ndarray Z) (label : Z) : nat :=
  length (np_where (ring original expanded label)).

(** The landmarks of a mask without tibia. *)
Definition no_landmarks : landmarks := (None, None, None, None).

(** The voxels of [v] are those of [v0], but for voxels painted 1 or 2 in a
    slice whose index is one of [l]. *)
Definition painted_in (v0 v : ndarray Z) (l : list Z) : Prop :=
  shape v = shape v0 /\
  forall x y z,
    data v (x, y, z) = data v0 (x, y, z) \/
    ((data v (x, y, z) = 1 \/ data v (x, y, z) = 2) /\
     exists i, In i l /\ norm_index (snd (fst (shape v0))) i = Ok y).

(** A volume without tibia: no voxel of the array holds the label 1. *)
Definition no_tibia (seg : ndarray Z) : Prop :=
  forall p, in_bounds (shape seg) p = true -> data seg p <> 1.

(** A spacing of zero (of either sign). *)
Definition is_zero (v : float) : Prop := PrimFloat.eqb v 0 = true.

(** A volume of five slices of one voxel, with one intensity everywhere. *)
Definition five_slices (v : float) : ndarray float :=
  mk_ndarray (1, 5, 1) (fun _ => v).

(** * Properties *)

(** ** Outcomes, ranges and indices *)

Lemma bind_Ok_inv {A B : Type} (r : result A) (k : A -> result B) (b : B) :
  bind r k = Ok b -> exists a, r = Ok a /\ k a = Ok b.
Proof. destruct r as [a|e]; simpl; [eauto | discriminate]. Qed.

Ltac bind_inv H :=
  let a := fresh "a" in
  let Ha := fresh "Ha" in
  apply bind_Ok_inv in H; destruct H as [a [Ha H]].

Lemma In_zrange (n i : Z) : In i (zrange n) <-> 0 <= i < n.
Proof.
  unfold zrange. rewrite in_map_iff. split.
  - intros [k [Hk Hin]]. apply in_seq in Hin. lia.
  - intros Hi. exists (Z.to_nat i). split; [lia | apply in_seq; lia].
Qed.

Lemma In_range (a b i : Z) : In i (range a b) <-> a <= i < b.
Proof.
  unfold range. rewrite in_map_iff. split.
  - intros [d [Hd Hin]]. apply In_zrange in Hin. lia.
  - intros Hi. exists (i - a). split; [lia | apply In_zrange; lia].
Qed.

Lemma in_range_spec (n i : Z) : in_range n i = true <-> 0 <= i < n.
Proof. unfold in_range. rewrite andb_true_iff, Z.leb_le, Z.ltb_lt. tauto. Qed.

Lemma index_eqb_eq (p q : index) : index_eqb p q = true <-> p = q.
Proof.
  destruct p as [[i j] k], q as [[i' j'] k']. unfold index_eqb.
  rewrite !andb_true_iff, !Z.eqb_eq. split.
  - intros [[-> ->] ->]. reflexivity.
  - intros H. inversion H. auto.
Qed.

Lemma index_eqb_refl (p : index) : index_eqb p p = true.
Proof. apply index_eqb_eq. reflexivity. Qed.

Lemma In_ndindex (sh : shape3) (p : index) :
  In p (ndindex sh) <-> in_bounds sh p = true.
Proof.
  destruct sh as [[nx ny] nz], p as [[i j] k]. unfold ndindex, in_bounds.
  rewrite !andb_true_iff, !in_range_spec, in_flat_map. split.
  - intros [i' [Hi H]]. apply in_flat_map in H. destruct H as [j' [Hj H]].
    apply in_map_iff in H. destruct H as [k' [E Hk]]. inversion E; subst.
    apply In_zrange in Hi, Hj, Hk. tauto.
  - intros [[Hi Hj] Hk]. exists i. split; [apply In_zrange; exact Hi |].
    apply in_flat_map. exists j. split; [apply In_zrange; exact Hj |].
    apply in_map_iff. exists k. split; [reflexivity | apply In_zrange; exact Hk].
Qed.

(** A true entry of the mask has a rank below the number of true entries. *)
Lemma rank_in_lt (l : list index) (mask : index -> bool) (p : index) :
  In p l -> mask p = true ->
  (rank_in l mask p < length (filter mask l))%nat.
Proof.
  induction l as [|q l IH]; intros Hin Hp; [destruct Hin |].
  simpl. destruct (index_eqb q p) eqn:E.
  - apply index_eqb_eq in E. subst q. rewrite Hp. simpl. lia.
  - destruct Hin as [->|Hin]; [rewrite index_eqb_refl in E; discriminate |].
    specialize (IH Hin Hp). destruct (mask q); simpl; lia.
Qed.

(** ** Label volumes *)

(** What the last three lines of each stage build: zeros, then the tibia
    mask painted 1, then the femur mask painted 2. *)
Lemma painted_exclusive {A : Type} (a : ndarray A) (tibia femur : ndarray bool) :
  exclusive_labels (assign_where (assign_where (zeros_like a) tibia 1) femur 2).
Proof.
  intros p. unfold is_label. simpl.
  destruct (data femur p), (data tibia p); simpl; auto.
Qed.

(** ** The box dilation *)

Lemma box_offsets_zero (k : Z) : 1 <= k -> In 0 (Ndimage.box_offsets k).
Proof.
  intros Hk. unfold Ndimage.box_offsets. apply in_map_iff.
  exists (k / 2). split; [lia |]. apply In_zrange. split.
  - apply Z.div_pos; lia.
  - apply Z.div_lt_upper_bound; lia.
Qed.

(** The box contains its centre, so the dilation keeps every set voxel. *)
Lemma binary_dilation_extensive (m : ndarray bool) (kx ky kz : Z) (p : index) :
  1 <= kx -> 1 <= ky -> 1 <= kz ->
  in_bounds (shape m) p = true -> data m p = true ->
  data (Ndimage.binary_dilation m (kx, ky, kz)) p = true.
Proof.
  intros Hx Hy Hz Hb Hp. destruct p as [[x y] z]. simpl.
  apply existsb_exists. exists 0. split; [apply box_offsets_zero; exact Hx |].
  apply existsb_exists. exists 0. split; [apply box_offsets_zero; exact Hy |].
  apply existsb_exists. exists 0. split; [apply box_offsets_zero; exact Hz |].
  rewrite !Z.sub_0_r, Hb, Hp. reflexivity.
Qed.

(** A box of one voxel dilates nothing. *)
Lemma binary_dilation_unit (m : ndarray bool) (p : index) :
  data (Ndimage.binary_dilation m (1, 1, 1)) p =
  in_bounds (shape m) p && data m p.
Proof.
  destruct p as [[x y] z]. simpl.
  change (Ndimage.box_offsets 1) with [0]. simpl.
  rewrite !Z.sub_0_r, !orb_false_r. reflexivity.
Qed.

Lemma kernel_size_pos (expansion_mm vs : float) (k : Z) :
  kernel_size expansion_mm vs = Ok k -> 1 <= k.
Proof.
  unfold kernel_size. intros H. bind_inv H. inversion H. lia.
Qed.

Lemma kernel_sizes_pos (voxel_sizes : voxel_spacing) (expansion_mm : float)
  (kx ky kz : Z) :
  kernel_sizes voxel_sizes expansion_mm = Ok (kx, ky, kz) ->
  1 <= kx /\ 1 <= ky /\ 1 <= kz.
Proof.
  destruct voxel_sizes as [[vx vy] vz]. unfold kernel_sizes. intros H.
  apply bind_Ok_inv in H. destruct H as [x [Hx H]].
  apply bind_Ok_inv in H. destruct H as [y [Hy H]].
  apply bind_Ok_inv in H. destruct H as [z [Hz H]].
  inversion H; subst.
  repeat split; eapply kernel_size_pos; eassumption.
Qed.

(** Zero divided by a positive float is zero. *)
Lemma zero_div_pos (v : float) :
  PrimFloat.ltb 0 v = true -> PrimFloat.div 0 v = 0%float.
Proof.
  intros H. apply Prim2SF_inj. rewrite FloatAxioms.div_spec.
  rewrite ltb_spec in H.
  change (Prim2SF 0) with (S754_zero false) in *.
  destruct (Prim2SF v) as [[|]|[|]| |[|] m e]; try discriminate; reflexivity.
Qed.

Lemma kernel_size_zero (v : float) :
  PrimFloat.ltb 0 v = true -> kernel_size 0 v = Ok 1.
Proof.
  intros H. unfold kernel_size. rewrite (zero_div_pos v H). reflexivity.
Qed.

(** The expander at one voxel of the array, for a box of at least one voxel
    along each axis. *)
Lemma expand_with_kernel_voxel (seg : ndarray Z) (kx ky kz : Z) (p : index) :
  1 <= kx -> 1 <= ky -> 1 <= kz ->
  in_bounds (shape seg) p = true ->
  (data seg p = 1 -> data (expand_with_kernel seg (kx, ky, kz)) p = 1) /\
  (data seg p = 2 -> data (expand_with_kernel seg (kx, ky, kz)) p = 2) /\
  (data (Ndimage.binary_dilation (eq_scalar seg 1) (kx, ky, kz)) p = true ->
   data (expand_with_kernel seg (kx, ky, kz)) p <> 1 ->
   contested seg (kx, ky, kz) p = true /\ data seg p <> 1) /\
  (data (Ndimage.binary_dilation (eq_scalar seg 2) (kx, ky, kz)) p = true ->
   data (expand_with_kernel seg (kx, ky, kz)) p <> 2 ->
   contested seg (kx, ky, kz) p = true /\ data seg p <> 2) /\
  (data (Ndimage.binary_dilation (eq_scalar seg 1) (kx, ky, kz)) p = true \/
   data (Ndimage.binary_dilation (eq_scalar seg 2) (kx, ky, kz)) p = true ->
   data (expand_with_kernel seg (kx, ky, kz)) p = 0 ->
   contested seg (kx, ky, kz) p = true /\ data seg p <> 1 /\ data seg p <> 2).
Proof.
  intros Hx Hy Hz Hb.
  assert (HT : data seg p = 1 ->
               data (Ndimage.binary_dilation (eq_scalar seg 1) (kx, ky, kz)) p = true).
  { intros E. apply binary_dilation_extensive; try assumption.
    simpl. apply Z.eqb_eq. exact E. }
  assert (HF : data seg p = 2 ->
               data (Ndimage.binary_dilation (eq_scalar seg 2) (kx, ky, kz)) p = true).
  { intros E. apply binary_dilation_extensive; try assumption.
    simpl. apply Z.eqb_eq. exact E. }
  unfold expand_with_kernel, contested.
  cbn [data assign_where assign_where_from mask_and zeros_like].
  destruct (data (Ndimage.binary_dilation (eq_scalar seg 1) (kx, ky, kz)) p);
    destruct (data (Ndimage.binary_dilation (eq_scalar seg 2) (kx, ky, kz)) p);
    cbn [andb data eq_scalar];
    destruct (data seg p =? 1) eqn:E1; destruct (data seg p =? 2) eqn:E2;
    rewrite ?Z.eqb_eq, ?Z.eqb_neq in *;
    repeat split; intros; try lia; try discriminate;
    try (specialize (HT ltac:(assumption)); discriminate);
    try (specialize (HF ltac:(assumption)); discriminate);
    try (match goal with H : _ \/ _ |- _ => destruct H; discriminate end).
Qed.

(** What the expander returns holds every labelled voxel of its input. *)
Lemma expand_with_kernel_contains (seg : ndarray Z) (kx ky kz : Z) :
  1 <= kx -> 1 <= ky -> 1 <= kz ->
  contains_labels (expand_with_kernel seg (kx, ky, kz)) seg.
Proof.
  intros Hx Hy Hz p Hb.
  destruct (expand_with_kernel_voxel seg kx ky kz p Hx Hy Hz Hb) as (H1 & H2 & _).
  split; assumption.
Qed.

Lemma expand_with_kernel_label_volume (seg : ndarray Z) (ks : Z * Z * Z) :
  label_volume (expand_with_kernel seg ks).
Proof.
  intros p _. unfold expand_with_kernel. apply painted_exclusive.
Qed.

(** ** The mask randomizer *)

Lemma nth_nil_false (k : nat) : nth k (@nil bool) false = false.
Proof. destruct k; reflexivity. Qed.

Lemma randomize_label_data (o e : ndarray Z) (rv : float) (res : ndarray Z)
  (g : RandomState) (label : Z) (p : index) :
  data (fst (randomize_label o e rv (res, g) label)) p =
  if (data o p =? label) || kept o e rv g label p then label else data res p.
Proof.
  unfold randomize_label, kept, ring.
  destruct (0 <? _)%nat eqn:E.
  - simpl. destruct (data o p =? label), (data e p =? label); reflexivity.
  - apply Nat.ltb_ge in E. apply Nat.le_0_r in E. rewrite E.
    unfold random_sample. simpl.
    destruct (rank_in _ _ p); rewrite andb_false_r, orb_false_r; reflexivity.
Qed.

Lemma randomize_label_shape (o e : ndarray Z) (rv : float) (res : ndarray Z)
  (g : RandomState) (label : Z) :
  shape (fst (randomize_label o e rv (res, g) label)) = shape res.
Proof.
  unfold randomize_label. destruct (0 <? _)%nat; reflexivity.
Qed.

Lemma randomize_label_stream (o e : ndarray Z) (rv : float) (res : ndarray Z)
  (g : RandomState) (label : Z) :
  stream (snd (randomize_label o e rv (res, g) label)) = stream g.
Proof.
  unfold randomize_label. destruct (0 <? _)%nat; reflexivity.
Qed.

(** The randomizer returns on volumes of one shape, and the label of a voxel
    is decided by the femur turn, then the tibia turn. *)
Lemma generate_random_mask_Ok (o e : ndarray Z) (rv : float) (g : RandomState) :
  shape o = shape e ->
  exists out g',
    generate_random_mask o e rv g = Ok (out, g') /\
    shape out = shape o /\
    forall p,
      data out p =
      if (data o p =? 2) || kept o e (clamp rv) (after_tibia o e (clamp rv) g) 2 p
      then 2
      else if (data o p =? 1) || kept o e (clamp rv) g 1 p then 1 else 0.
Proof.
  intros Hs. unfold generate_random_mask, after_tibia.
  replace (shape_eqb (shape o) (shape e)) with true
    by (symmetry; apply index_eqb_eq; exact Hs).
  fold (clamp rv). unfold fold_left.
  destruct (randomize_label o e (clamp rv) (zeros_like o, g) 1) as [res1 g1] eqn:E1.
  destruct (randomize_label o e (clamp rv) (res1, g1) 2) as [res2 g2] eqn:E2.
  exists res2, g2. split; [reflexivity |].
  assert (R2 : res2 = fst (randomize_label o e (clamp rv) (res1, g1) 2))
    by (rewrite E2; reflexivity).
  assert (R1 : res1 = fst (randomize_label o e (clamp rv) (zeros_like o, g) 1))
    by (rewrite E1; reflexivity).
  split.
  - rewrite R2, randomize_label_shape, R1, randomize_label_shape. reflexivity.
  - intros p. rewrite R2, randomize_label_data, R1, randomize_label_data.
    reflexivity.
Qed.

Lemma generate_random_mask_inv (o e : ndarray Z) (rv : float) (g g' : RandomState)
  (out : ndarray Z) :
  generate_random_mask o e rv g = Ok (out, g') -> shape o = shape e.
Proof.
  unfold generate_random_mask. destruct (shape_eqb _ _) eqn:E; [| discriminate].
  intros _. apply index_eqb_eq. exact E.
Qed.

(** Only voxels of the ring are kept. *)
Lemma kept_ring (o e : ndarray Z) (rv : float) (g : RandomState) (label : Z)
  (p : index) :
  kept o e rv g label p = true -> data e p = label /\ data o p <> label.
Proof.
  unfold kept, ring. simpl. rewrite !andb_true_iff, negb_true_iff.
  intros [[He Ho] _]. split; [apply Z.eqb_eq | apply Z.eqb_neq]; assumption.
Qed.

Lemma nth_map_seq {A : Type} (F : nat -> A) (n r : nat) (d : A) :
  (r < n)%nat -> nth r (map F (seq 0 n)) d = F r.
Proof.
  intros Hr. rewrite (nth_indep _ d (F O)) by (rewrite length_map, length_seq; exact Hr).
  rewrite map_nth, seq_nth by exact Hr. reflexivity.
Qed.

(** With [random_value = 1.0] every ring voxel of the array is kept. *)
Lemma kept_one (o e : ndarray Z) (g : RandomState) (label : Z) (p : index) :
  uniform g -> in_bounds (shape e) p = true ->
  data e p = label -> data o p <> label ->
  kept o e 1 g label p = true.
Proof.
  intros Hg Hb He Ho. unfold kept.
  assert (Hr : data (ring o e label) p = true).
  { unfold ring. simpl. rewrite andb_true_iff, negb_true_iff.
    split; [apply Z.eqb_eq | apply Z.eqb_neq]; assumption. }
  rewrite Hr. simpl andb.
  unfold random_sample. simpl fst. rewrite map_map.
  rewrite nth_map_seq.
  - apply Hg.
  - unfold np_where. apply rank_in_lt; [| exact Hr].
    apply In_ndindex. exact Hb.
Qed.

Lemma not_below_zero (r : float) :
  PrimFloat.leb 0 r = true -> PrimFloat.ltb r 0 = false.
Proof.
  rewrite leb_spec, ltb_spec.
  change (Prim2SF 0) with (S754_zero false).
  destruct (Prim2SF r) as [[|]|[|]| |[|] m e]; try discriminate; reflexivity.
Qed.

(** With [random_value = 0.0] no ring voxel is kept. *)
Lemma kept_zero (o e : ndarray Z) (g : RandomState) (label : Z) (p : index) :
  uniform g -> kept o e 0 g label p = false.
Proof.
  intros Hg. unfold kept. apply andb_false_iff. right.
  match goal with |- nth ?k ?l false = false =>
    destruct (nth_in_or_default k l false) as [Hin|Hd]; [| exact Hd];
    revert Hin; generalize (nth k l false) end.
  intros b Hin. apply in_map_iff in Hin. destruct Hin as [r [Hr Hin]].
  unfold random_sample in Hin. simpl in Hin. apply in_map_iff in Hin.
  destruct Hin as [k [Hk _]]. subst r b.
  apply not_below_zero. apply Hg.
Qed.

Lemma uniform_after_tibia (o e : ndarray Z) (rv : float) (g : RandomState) :
  uniform g -> uniform (after_tibia o e rv g).
Proof.
  unfold uniform, after_tibia. intros Hg k.
  rewrite randomize_label_stream. apply Hg.
Qed.

Lemma clamp_one : clamp 1 = 1%float.
Proof. reflexivity. Qed.

Lemma clamp_zero : clamp 0 = 0%float.
Proof. reflexivity. Qed.

Lemma uniform_half_draws : uniform half_draws.
Proof. intros k. split; reflexivity. Qed.

Lemma centre_tibia_2mm_contains : contains_labels centre_tibia_2mm centre_tibia.
Proof. apply expand_with_kernel_contains; lia. Qed.

Lemma label_volume_of (sh : shape3) (voxels : list (index * Z)) :
  Forall (fun e => is_label (snd e)) voxels -> label_volume (volume_of sh voxels).
Proof.
  intros Hall p _. unfold volume_of. simpl.
  destruct (find _ voxels) as [e|] eqn:E; [| left; reflexivity].
  apply find_some in E. destruct E as [Hin _].
  rewrite Forall_forall in Hall. apply Hall. exact Hin.
Qed.

Ltac solve_label_volume :=
  apply label_volume_of;
  repeat (apply Forall_cons; [unfold is_label; simpl; auto |]);
  apply Forall_nil.

(** ** The claims on the label volumes *)

(** C1: every label volume that the 3-D postprocessor, the fallback
    segmenter, the mask expander or the mask randomizer returns gives each
    voxel one label among 0, 1 and 2, and no voxel is in both the tibia
    region ([== 1]) and the femur region ([== 2]). *)
Theorem stage_labels_exclusive {lib : ImageLib} :
  (forall vol, exclusive_labels (apply_3d_postprocessing vol)) /\
  (forall volume start_slice end_slice out,
     fallback_segmentation volume start_slice end_slice = Ok out ->
     exclusive_labels out) /\
  (forall seg voxel_sizes expansion_mm out,
     expand_segmentation seg voxel_sizes expansion_mm = Ok out ->
     exclusive_labels out) /\
  (forall original expanded random_value g out g',
     generate_random_mask original expanded random_value g = Ok (out, g') ->
     exclusive_labels out).
Proof.
  split; [| split; [| split]].
  - intros vol. unfold apply_3d_postprocessing. apply painted_exclusive.
  - intros volume start_slice end_slice out H.
    unfold fallback_segmentation in H. bind_inv H. inversion H.
    apply painted_exclusive.
  - intros seg voxel_sizes expansion_mm out H.
    unfold expand_segmentation in H. bind_inv H. inversion H.
    apply painted_exclusive.
  - intros original expanded random_value g out g' H.
    pose proof (generate_random_mask_inv _ _ _ _ _ _ H) as Hs.
    destruct (generate_random_mask_Ok original expanded random_value g Hs)
      as (out' & g'' & E & _ & D).
    rewrite E in H. inversion H; subst. intros p. split.
    + rewrite D. unfold is_label.
      destruct (_ || _); [auto |]. destruct (_ || _); auto.
    + simpl. rewrite D.
      destruct (_ || _); [reflexivity |]. destruct (_ || _); reflexivity.
Qed.

Lemma stage_labels_exclusive_witness :
  exclusive_labels (@apply_3d_postprocessing identity_lib centre_tibia) /\
  exclusive_labels (expand_with_kernel centre_tibia (2, 2, 2)) /\
  exclusive_labels
    (fst (fold_left (randomize_label centre_tibia centre_tibia_2mm (clamp 0.65))
            [1; 2] (zeros_like centre_tibia, half_draws))).
Proof.
  destruct (@stage_labels_exclusive identity_lib) as (H1 & _ & H3 & H4).
  split; [apply H1 |]. split.
  - apply (H3 centre_tibia (1, 1, 1)%float 2%float). reflexivity.
  - eapply (H4 centre_tibia centre_tibia_2mm 0.65%float half_draws).
    reflexivity.
Defined.

(** C2: the expanded volume of the randomizer is what the mask expander
    returns for the original: it has the shape of the original and holds
    every labelled voxel of the original under the same label.  For every
    such pair, every random value and every sequence of draws the randomizer
    returns a volume in which, for the labels 1 and 2, every voxel of the
    original region keeps its label and every voxel with the label lies in
    the expanded region. *)
Theorem randomizer_between (original expanded : ndarray Z)
  (random_value : float) (g : RandomState) :
  shape original = shape expanded ->
  contains_labels expanded original ->
  exists out g',
    generate_random_mask original expanded random_value g = Ok (out, g') /\
    forall p, in_bounds (shape original) p = true ->
      forall label, label = 1 \/ label = 2 ->
        (data original p = label -> data out p = label) /\
        (data out p = label -> data expanded p = label).
Proof.
  intros Hs Hc.
  destruct (generate_random_mask_Ok original expanded random_value g Hs)
    as (out & g' & E & _ & D).
  exists out, g'. split; [exact E |].
  intros p Hb label Hl. rewrite D. destruct (Hc p Hb) as [C1 C2].
  destruct (data original p =? 2) eqn:O2;
    [apply Z.eqb_eq in O2 | apply Z.eqb_neq in O2]; simpl orb.
  - destruct Hl; subst label; lia.
  - destruct (kept original expanded _ _ 2 p) eqn:K2.
    + apply kept_ring in K2. destruct Hl; subst label; lia.
    + destruct (data original p =? 1) eqn:O1;
        [apply Z.eqb_eq in O1 | apply Z.eqb_neq in O1]; simpl orb.
      * destruct Hl; subst label; lia.
      * destruct (kept original expanded _ _ 1 p) eqn:K1.
        -- apply kept_ring in K1. destruct Hl; subst label; lia.
        -- destruct Hl; subst label; lia.
Qed.

Lemma randomizer_between_witness :
  exists out g',
    generate_random_mask centre_tibia centre_tibia_2mm 0.65 half_draws
      = Ok (out, g') /\
    forall p, in_bounds (shape centre_tibia) p = true ->
      forall label, label = 1 \/ label = 2 ->
        (data centre_tibia p = label -> data out p = label) /\
        (data out p = label -> data centre_tibia_2mm p = label).
Proof.
  apply (randomizer_between centre_tibia centre_tibia_2mm 0.65 half_draws).
  - reflexivity.
  - exact centre_tibia_2mm_contains.
Defined.

(** C3: whenever the kernel sizes are computed, the mask expander returns,
    and in its output every voxel labelled 1 in the input is labelled 1 and
    every voxel labelled 2 is labelled 2; a voxel that the dilation of a
    label reaches and that does not end with this label is contested (both
    dilations reach it) and did not have the label in the input, and a
    dilated voxel that ends as background is contested and had neither label
    in the input. *)
Theorem expander_monotone (seg : ndarray Z) (voxel_sizes : voxel_spacing)
  (expansion_mm : float) (ks : Z * Z * Z) :
  kernel_sizes voxel_sizes expansion_mm = Ok ks ->
  expand_segmentation seg voxel_sizes expansion_mm
    = Ok (expand_with_kernel seg ks) /\
  forall p, in_bounds (shape seg) p = true ->
    (data seg p = 1 -> data (expand_with_kernel seg ks) p = 1) /\
    (data seg p = 2 -> data (expand_with_kernel seg ks) p = 2) /\
    (data (Ndimage.binary_dilation (eq_scalar seg 1) ks) p = true ->
     data (expand_with_kernel seg ks) p <> 1 ->
     contested seg ks p = true /\ data seg p <> 1) /\
    (data (Ndimage.binary_dilation (eq_scalar seg 2) ks) p = true ->
     data (expand_with_kernel seg ks) p <> 2 ->
     contested seg ks p = true /\ data seg p <> 2) /\
    (data (Ndimage.binary_dilation (eq_scalar seg 1) ks) p = true \/
     data (Ndimage.binary_dilation (eq_scalar seg 2) ks) p = true ->
     data (expand_with_kernel seg ks) p = 0 ->
     contested seg ks p = true /\ data seg p <> 1 /\ data seg p <> 2).
Proof.
  intros Hk. split.
  - unfold expand_segmentation. rewrite Hk. reflexivity.
  - intros p Hb. destruct ks as [[kx ky] kz].
    destruct (kernel_sizes_pos _ _ _ _ _ Hk) as (Hx & Hy & Hz).
    apply expand_with_kernel_voxel; assumption.
Qed.

Lemma expander_monotone_witness :
  expand_segmentation centre_tibia (0.5, 0.5, 1)%float 2
    = Ok (expand_with_kernel centre_tibia (4, 4, 2)) /\
  forall p, in_bounds (shape centre_tibia) p = true ->
    (data centre_tibia p = 1 -> data (expand_with_kernel centre_tibia (4, 4, 2)) p = 1) /\
    (data centre_tibia p = 2 -> data (expand_with_kernel centre_tibia (4, 4, 2)) p = 2) /\
    (data (Ndimage.binary_dilation (eq_scalar centre_tibia 1) (4, 4, 2)) p = true ->
     data (expand_with_kernel centre_tibia (4, 4, 2)) p <> 1 ->
     contested centre_tibia (4, 4, 2) p = true /\ data centre_tibia p <> 1) /\
    (data (Ndimage.binary_dilation (eq_scalar centre_tibia 2) (4, 4, 2)) p = true ->
     data (expand_with_kernel centre_tibia (4, 4, 2)) p <> 2 ->
     contested centre_tibia (4, 4, 2) p = true /\ data centre_tibia p <> 2) /\
    (data (Ndimage.binary_dilation (eq_scalar centre_tibia 1) (4, 4, 2)) p = true \/
     data (Ndimage.binary_dilation (eq_scalar centre_tibia 2) (4, 4, 2)) p = true ->
     data (expand_with_kernel centre_tibia (4, 4, 2)) p = 0 ->
     contested centre_tibia (4, 4, 2) p = true /\
     data centre_tibia p <> 1 /\ data centre_tibia p <> 2).
Proof.
  apply (expander_monotone centre_tibia (0.5, 0.5, 1)%float 2 (4, 4, 2)).
  reflexivity.
Defined.

(** C4: for an original label volume, an expanded label volume of the same
    shape and draws in [0, 1), the randomizer called with
    [random_value = 0.0] returns the original volume; called with
    [random_value = 1.0] it returns the expanded volume, the expanded volume
    being what the mask expander returns for the original: it holds every
    labelled voxel of the original under the same label. *)
Theorem randomizer_extremes (original expanded : ndarray Z) (g : RandomState) :
  shape original = shape expanded ->
  label_volume original -> label_volume expanded ->
  uniform g ->
  (contains_labels expanded original ->
   exists out g',
     generate_random_mask original expanded 1 g = Ok (out, g') /\
     array_equal out expanded) /\
  (exists out g',
     generate_random_mask original expanded 0 g = Ok (out, g') /\
     array_equal out original).
Proof.
  intros Hs Lo Le Hg. split.
  - intros Hc.
    destruct (generate_random_mask_Ok original expanded 1 g Hs)
      as (out & g' & E & Sh & D).
    exists out, g'. split; [exact E |]. split; [congruence |].
    intros p Hb. rewrite Sh in Hb. rewrite D, clamp_one.
    destruct (Hc p Hb) as [C1 C2].
    assert (Hbe : in_bounds (shape expanded) p = true) by (rewrite <- Hs; exact Hb).
    pose proof (kept_one original expanded (after_tibia original expanded 1 g) 2 p
                  (uniform_after_tibia _ _ _ _ Hg) Hbe) as K2.
    pose proof (kept_one original expanded g 1 p Hg Hbe) as K1.
    destruct (data original p =? 2) eqn:O2;
      [apply Z.eqb_eq in O2 | apply Z.eqb_neq in O2]; simpl orb.
    + symmetry. apply C2. exact O2.
    + destruct (kept original expanded 1 _ 2 p) eqn:Q2.
      * apply kept_ring in Q2. destruct Q2 as [Q2 _]. symmetry. exact Q2.
      * destruct (data original p =? 1) eqn:O1;
          [apply Z.eqb_eq in O1 | apply Z.eqb_neq in O1]; simpl orb.
        -- symmetry. apply C1. exact O1.
        -- destruct (kept original expanded 1 g 1 p) eqn:Q1.
           ++ apply kept_ring in Q1. destruct Q1 as [Q1 _]. symmetry. exact Q1.
           ++ destruct (Le p Hbe) as [Z0 | [Z1 | Z2]].
              ** symmetry. exact Z0.
              ** discriminate (K1 Z1 O1).
              ** discriminate (K2 Z2 O2).
  - destruct (generate_random_mask_Ok original expanded 0 g Hs)
      as (out & g' & E & Sh & D).
    exists out, g'. split; [exact E |]. split; [exact Sh |].
    intros p Hb. rewrite Sh in Hb. rewrite D, clamp_zero.
    rewrite !kept_zero by (try apply uniform_after_tibia; exact Hg).
    rewrite !orb_false_r.
    destruct (Lo p Hb) as [Z0 | [Z1 | Z2]]; rewrite ?Z0, ?Z1, ?Z2; reflexivity.
Qed.

Lemma randomizer_extremes_witness :
  (exists out g',
     generate_random_mask centre_tibia centre_tibia_2mm 1 half_draws
       = Ok (out, g') /\
     array_equal out centre_tibia_2mm) /\
  (exists out g',
     generate_random_mask centre_tibia centre_tibia_2mm 0 half_draws
       = Ok (out, g') /\
     array_equal out centre_tibia).
Proof.
  destruct (randomizer_extremes centre_tibia centre_tibia_2mm half_draws)
    as [H1 H0].
  - reflexivity.
  - solve_label_volume.
  - apply expand_with_kernel_label_volume.
  - exact uniform_half_draws.
  - split; [apply H1; exact centre_tibia_2mm_contains | exact H0].
Defined.

(** C9, as the code has it: with [expansion_mm = 0] and positive spacings the
    kernel has one voxel along each axis, through [max(1, ks)], and a box of
    one voxel dilates nothing: the expander returns the input label volume
    unchanged. *)
Theorem zero_expansion_identity (seg : ndarray Z) (vx vy vz : float) :
  PrimFloat.ltb 0 vx = true ->
  PrimFloat.ltb 0 vy = true ->
  PrimFloat.ltb 0 vz = true ->
  label_volume seg ->
  kernel_sizes (vx, vy, vz) 0 = Ok (1, 1, 1) /\
  exists out,
    expand_segmentation seg (vx, vy, vz) 0 = Ok out /\ array_equal out seg.
Proof.
  intros Hx Hy Hz Hl.
  assert (Hk : kernel_sizes (vx, vy, vz) 0 = Ok (1, 1, 1)).
  { unfold kernel_sizes.
    rewrite (kernel_size_zero vx Hx), (kernel_size_zero vy Hy),
            (kernel_size_zero vz Hz). reflexivity. }
  split; [exact Hk |].
  exists (expand_with_kernel seg (1, 1, 1)). split.
  - unfold expand_segmentation. rewrite Hk. reflexivity.
  - split; [reflexivity |]. intros p Hb.
    change (shape (expand_with_kernel seg (1, 1, 1))) with (shape seg) in Hb.
    unfold expand_with_kernel.
    cbn [data assign_where assign_where_from mask_and zeros_like].
    rewrite !binary_dilation_unit. cbn [shape data eq_scalar]. rewrite Hb.
    destruct (Hl p Hb) as [Z0 | [Z1 | Z2]]; rewrite ?Z0, ?Z1, ?Z2; reflexivity.
Qed.

Lemma zero_expansion_identity_witness :
  kernel_sizes (0.5, 0.5, 1)%float 0 = Ok (1, 1, 1) /\
  exists out,
    expand_segmentation centre_tibia (0.5, 0.5, 1)%float 0 = Ok out /\
    array_equal out centre_tibia.
Proof.
  apply (zero_expansion_identity centre_tibia 0.5 0.5 1).
  - reflexivity.
  - reflexivity.
  - reflexivity.
  - solve_label_volume.
Defined.

(** C9 as stated fails: with [expansion_mm = 0] a lone tibia voxel in the
    middle of a 3 x 3 x 3 volume is not dilated; the output is the input and
    the six neighbours along the axes stay background. *)
Lemma zero_expansion_dilates_nothing :
  expand_segmentation centre_tibia (1, 1, 1)%float 0
    = Ok (expand_with_kernel centre_tibia (1, 1, 1)) /\
  array_equalb (expand_with_kernel centre_tibia (1, 1, 1)) centre_tibia = true /\
  map (data (expand_with_kernel centre_tibia (1, 1, 1)))
      [(0, 1, 1); (2, 1, 1); (1, 0, 1); (1, 2, 1); (1, 1, 0); (1, 1, 2)]
    = [0; 0; 0; 0; 0; 0].
Proof.
  split; [reflexivity |]. split; reflexivity.
Qed.

(** ** The joint locator *)

Lemma argmin_from_spec (l : list Z) : forall (best : Z) (besti i : nat),
  (argmin_from best besti i l = besti /\ Forall (fun x => best <= x) l) \/
  (exists k, argmin_from best besti i l = (i + k)%nat /\ (k < length l)%nat /\
             nth k l 0 < best /\
             Forall (fun x => nth k l 0 <= x) l /\
             forall k', (k' < k)%nat -> nth k l 0 < nth k' l 0).
Proof.
  induction l as [|x l IH]; intros best besti i.
  - left. split; [reflexivity | constructor].
  - simpl argmin_from. destruct (x <? best) eqn:E.
    + apply Z.ltb_lt in E. right.
      destruct (IH x i (S i)) as [[R F] | (k & R & Hk & Hlt & F & First)].
      * exists O. rewrite R. simpl.
        split; [lia |]. split; [lia |]. split; [exact E |]. split.
        -- constructor; [lia | exact F].
        -- intros k' Hk'. lia.
      * exists (S k). rewrite R. simpl.
        split; [lia |]. split; [lia |]. split; [lia |]. split.
        -- constructor; [lia | exact F].
        -- intros [|k'] Hk'; [lia | apply First; lia].
    + apply Z.ltb_ge in E.
      destruct (IH best besti (S i)) as [[R F] | (k & R & Hk & Hlt & F & First)].
      * left. split; [exact R | constructor; [exact E | exact F]].
      * right. exists (S k). rewrite R. simpl.
        split; [lia |]. split; [lia |]. split; [lia |]. split.
        -- constructor; [lia | exact F].
        -- intros [|k'] Hk'; [lia | apply First; lia].
Qed.

(** [np.argmin] returns the first position of the least value. *)
Lemma argmin_spec (l : list Z) :
  l <> [] ->
  (argmin l < length l)%nat /\
  Forall (fun x => nth (argmin l) l 0 <= x) l /\
  forall k', (k' < argmin l)%nat -> nth (argmin l) l 0 < nth k' l 0.
Proof.
  destruct l as [|x l]; [congruence |]. intros _. unfold argmin.
  destruct (argmin_from_spec l x O 1%nat) as [[R F] | (k & R & Hk & Hlt & F & First)];
    rewrite R.
  - simpl. split; [lia |]. split.
    + constructor; [lia | exact F].
    + intros k' Hk'. lia.
  - simpl. split; [lia |]. split.
    + constructor; [lia | exact F].
    + intros [|k'] Hk'; [exact Hlt | apply First; lia].
Qed.

Lemma seq_increasing (n s : nat) : StronglySorted lt (seq s n).
Proof.
  revert s. induction n as [|n IH]; intros s; simpl; constructor.
  - apply IH.
  - apply Forall_forall. intros x Hx. apply in_seq in Hx. lia.
Qed.

Lemma StronglySorted_map {A B : Type} (R : A -> A -> Prop) (R' : B -> B -> Prop)
  (f : A -> B) (l : list A) :
  (forall x y, R x y -> R' (f x) (f y)) ->
  StronglySorted R l -> StronglySorted R' (map f l).
Proof.
  intros Hf H. induction H as [|a l Hs IH Ha]; simpl; constructor.
  - exact IH.
  - apply Forall_forall. intros y Hy. apply in_map_iff in Hy.
    destruct Hy as [x [<- Hx]]. apply Hf.
    rewrite Forall_forall in Ha. apply Ha. exact Hx.
Qed.

Lemma StronglySorted_filter {A : Type} (R : A -> A -> Prop) (f : A -> bool)
  (l : list A) :
  StronglySorted R l -> StronglySorted R (filter f l).
Proof.
  intros H. induction H as [|a l Hs IH Ha]; simpl; [constructor |].
  destruct (f a); [| exact IH]. constructor; [exact IH |].
  apply Forall_forall. intros y Hy. apply filter_In in Hy.
  rewrite Forall_forall in Ha. apply Ha. apply Hy.
Qed.

Lemma range_increasing (a b : Z) : StronglySorted Z.lt (range a b).
Proof.
  unfold range, zrange. rewrite map_map.
  apply (StronglySorted_map lt Z.lt); [intros x y H; lia | apply seq_increasing].
Qed.

Lemma increasing_nth (l : list Z) : StronglySorted Z.lt l ->
  forall k1 k2, (k1 <= k2)%nat -> (k2 < length l)%nat ->
  nth k1 l 0 <= nth k2 l 0.
Proof.
  intros H. induction H as [|a l Hs IH Ha]; intros k1 k2 H12 H2; simpl in H2; [lia |].
  destruct k1 as [|k1], k2 as [|k2]; simpl; try lia.
  - rewrite Forall_forall in Ha. apply Z.lt_le_incl. apply Ha. apply nth_In. lia.
  - apply IH; lia.
Qed.

Lemma len_py_slice {A : Type} (l : list A) (a b : Z) :
  len (py_slice l a b)
  <= Z.max 0 (slice_bound (len l) b - slice_bound (len l) a).
Proof.
  unfold py_slice, len.
  match goal with |- Z.of_nat (length (firstn ?n ?l')) <= _ =>
    pose proof (firstn_le_length n l') end.
  lia.
Qed.

(** In a window of more than five rows lying in a slice of non-negative
    height, the window is no longer than the middle third. *)
Lemma len_middle_profile (smooth_profile : list Z) (height : Z) :
  0 <= height -> 5 < len (middle_profile smooth_profile height) ->
  len (middle_profile smooth_profile height) <= 2 * height / 3 - height / 3.
Proof.
  intros Hh H5. unfold middle_profile in *.
  pose proof (len_py_slice smooth_profile (height / 3) (2 * height / 3)) as L.
  assert (0 <= height / 3) by (apply Z.div_pos; lia).
  assert (0 <= 2 * height / 3) by (apply Z.div_pos; lia).
  unfold slice_bound in L.
  destruct (height / 3 <? 0) eqn:E1; [apply Z.ltb_lt in E1; lia |].
  destruct (2 * height / 3 <? 0) eqn:E2; [apply Z.ltb_lt in E2; lia |].
  lia.
Qed.

(** The indices that the locator collects are the interior local minima. *)
Lemma In_min_indices (mp : list Z) (j : Z) :
  In j (filter (fun j => (item mp j <? item mp (j - 1)) &&
                         (item mp j <? item mp (j + 1)))
               (range 2 (len mp - 2)))
  <-> candidate mp j.
Proof.
  unfold candidate.
  rewrite filter_In, In_range, andb_true_iff, !Z.ltb_lt. lia.
Qed.

(** Lines 17 to 29 on any smoothed profile. *)
Lemma joint_from_profile_cases (smooth_profile : list Z) (height : Z) :
  let mp := middle_profile smooth_profile height in
  (len mp <= 5 \/ (forall j, ~ candidate mp j) ->
   joint_from_profile smooth_profile height = height / 2) /\
  (5 < len mp -> (exists j, candidate mp j) ->
   exists j,
     candidate mp j /\
     (forall j', candidate mp j' -> item mp j <= item mp j') /\
     (forall j', candidate mp j' -> item mp j' = item mp j -> j <= j') /\
     joint_from_profile smooth_profile height = height / 3 + j /\
     (0 <= height ->
      height / 3 <= joint_from_profile smooth_profile height < 2 * height / 3)).
Proof.
  intros mp. unfold joint_from_profile. fold (middle_profile smooth_profile height).
  fold mp. cbv zeta.
  set (cands := filter _ (range 2 (len mp - 2))).
  assert (Hc : forall j, In j cands <-> candidate mp j)
    by (intros j; apply In_min_indices).
  split.
  - intros [Hlen | Hnone].
    + replace (5 <? len mp) with false by (symmetry; apply Z.ltb_ge; exact Hlen).
      reflexivity.
    + destruct (5 <? len mp); [| reflexivity].
      destruct cands as [|j cs]; [reflexivity |].
      exfalso. apply (Hnone j). apply Hc. left. reflexivity.
  - intros Hlen [j0 Hj0].
    replace (5 <? len mp) with true by (symmetry; apply Z.ltb_lt; exact Hlen).
    assert (Hne : cands <> []).
    { apply Hc in Hj0. intros E. rewrite E in Hj0. destruct Hj0. }
    assert (Hs : StronglySorted Z.lt cands)
      by (apply StronglySorted_filter, range_increasing).
    destruct cands as [|c cs] eqn:Ecs; [congruence |]. rewrite <- Ecs in *.
    set (vals := map (item mp) cands).
    assert (Hv : vals <> []) by (unfold vals; rewrite Ecs; discriminate).
    destruct (argmin_spec vals Hv) as (Hk & Hmin & Hfirst).
    assert (Hk' : (argmin vals < length cands)%nat)
      by (unfold vals in Hk; rewrite length_map in Hk; exact Hk).
    assert (Hnth : forall k, (k < length cands)%nat ->
                             nth k vals 0 = item mp (nth k cands 0)).
    { intros k Hlt. unfold vals.
      rewrite (nth_indep _ 0 (item mp 0)) by (rewrite length_map; exact Hlt).
      apply map_nth. }
    set (j := nth (argmin vals) cands 0).
    assert (Hj : candidate mp j) by (apply Hc; apply nth_In; exact Hk').
    exists j. split; [exact Hj |]. split; [| split; [| split]].
    + intros j' Hj'. apply Hc in Hj'. unfold j. rewrite <- Hnth by exact Hk'.
      rewrite Forall_forall in Hmin. apply Hmin. unfold vals.
      apply in_map. exact Hj'.
    + intros j' Hj' Heq. apply Hc in Hj'.
      destruct (In_nth cands j' 0 Hj') as (k' & Hk'lt & Hk'eq).
      destruct (Nat.lt_ge_cases k' (argmin vals)) as [Hlt | Hge].
      * specialize (Hfirst k' Hlt). rewrite !Hnth in Hfirst by assumption.
        rewrite Hk'eq in Hfirst. fold j in Hfirst. lia.
      * rewrite <- Hk'eq. unfold j. apply increasing_nth; assumption.
    + reflexivity.
    + intros Hh. fold j.
      pose proof (len_middle_profile smooth_profile height Hh Hlen) as Hmid.
      fold mp in Hmid. destruct Hj as [Hj _]. lia.
Qed.

(** C5, as the code has it: when the middle-third window of the smoothed
    profile has at most five rows, or has no interior local minimum, the
    joint locator returns [height // 2]; when the window has more than five
    rows and an interior local minimum, it returns [middle_start] plus the
    position of the interior local minimum of least value (the first one on
    a tie), an index of the middle third for a non-negative height. *)
Theorem joint_position_cases {lib : ImageLib} (bone_mask : array2 bool)
  (height : Z) :
  let mp := middle_profile (gaussian_filter1d (sum_axis0 bone_mask) 5) height in
  (len mp <= 5 \/ (forall j, ~ candidate mp j) ->
   find_joint_position bone_mask height = height / 2) /\
  (5 < len mp -> (exists j, candidate mp j) ->
   exists j,
     candidate mp j /\
     (forall j', candidate mp j' -> item mp j <= item mp j') /\
     (forall j', candidate mp j' -> item mp j' = item mp j -> j <= j') /\
     find_joint_position bone_mask height = height / 3 + j /\
     (0 <= height ->
      height / 3 <= find_joint_position bone_mask height < 2 * height / 3)).
Proof.
  unfold find_joint_position. apply joint_from_profile_cases.
Qed.

(** C5 as stated fails: in a slice of height 14 the window has five rows,
    its row 2 is the one interior local minimum, and the locator returns
    [height // 2 = 7], not [middle_start + 2 = 6]. *)
Lemma joint_short_window :
  let mp := middle_profile dip_profile 14 in
  mp = [3; 3; 1; 3; 3] /\
  candidate mp 2 /\
  (forall j, candidate mp j -> j = 2) /\
  joint_from_profile dip_profile 14 = 14 / 2 /\
  joint_from_profile dip_profile 14 <> 14 / 3 + 2.
Proof.
  cbv zeta. change (middle_profile dip_profile 14) with [3; 3; 1; 3; 3].
  split; [reflexivity |]. split.
  - unfold candidate, item, len. simpl. lia.
  - split.
    + unfold candidate, len. simpl. intros j Hj. lia.
    + split; [reflexivity | discriminate].
Qed.

Lemma joint_position_cases_witness :
  let flat := mk_array2 (3, 21) (fun _ => true) in
  let dip := mk_array2 (3, 21)
               (fun rc => if snd rc =? 11 then false else true) in
  @find_joint_position identity_lib flat 21 = 21 / 2 /\
  exists j,
    candidate (middle_profile (sum_axis0 dip) 21) j /\
    @find_joint_position identity_lib dip 21 = 21 / 3 + j.
Proof.
  intros flat dip. split.
  - apply (proj1 (@joint_position_cases identity_lib flat 21)).
    right. intros j [Hj [H1 H2]]. revert Hj H1 H2.
    change (middle_profile (gaussian_filter1d (sum_axis0 flat) 5) 21)
      with [3; 3; 3; 3; 3; 3; 3].
    unfold item, len. simpl length. intros Hj.
    assert (j = 2 \/ j = 3 \/ j = 4) as [-> | [-> | ->]] by lia; simpl; lia.
  - destruct (proj2 (@joint_position_cases identity_lib dip 21))
      as (j & Hj & _ & _ & E & _).
    + reflexivity.
    + exists 4. unfold candidate, item, len. simpl. lia.
    + exists j. split; [exact Hj | exact E].
Defined.

(** ** The slice segmenter and the slice loop *)

(** C8: on a slice whose maximum intensity is below the bone threshold the
    slice segmenter returns [(None, None)], and the slice loop of the volume
    assembler (threshold 200) returns the label volume as it was; on a slice
    whose maximum is not below the threshold the segmenter returns a pair of
    masks. *)
Theorem slice_without_bone {lib : ImageLib} (slice_data : array2 float)
  (bone_threshold m : float) :
  max2 slice_data = Ok m ->
  (PrimFloat.ltb m bone_threshold = true ->
   segment_slice slice_data bone_threshold = Ok (None, None)) /\
  (PrimFloat.ltb m 200 = true ->
   forall volume segmentation_volume i,
     slice_y volume i = Ok slice_data ->
     segment_slice_into volume segmentation_volume i = Ok segmentation_volume) /\
  (PrimFloat.ltb m bone_threshold = false ->
   exists femur_mask tibia_mask,
     segment_slice slice_data bone_threshold
       = Ok (Some femur_mask, Some tibia_mask)).
Proof.
  intros Hm. split; [| split].
  - intros Hlt. unfold segment_slice. rewrite Hm. simpl. rewrite Hlt. reflexivity.
  - intros Hlt volume segmentation_volume i Hs.
    unfold segment_slice_into, segment_slice. rewrite Hs. simpl.
    rewrite Hm. simpl. rewrite Hlt. reflexivity.
  - intros Hge. unfold segment_slice. rewrite Hm. simpl. rewrite Hge.
    eexists. eexists. reflexivity.
Qed.

Lemma slice_without_bone_witness :
  @segment_slice identity_lib (constant_slice 100) 200 = Ok (None, None) /\
  (forall segmentation_volume,
     @segment_slice_into identity_lib (constant_volume 100) segmentation_volume 0
       = Ok segmentation_volume) /\
  exists femur_mask tibia_mask,
    @segment_slice identity_lib (constant_slice 300) 200
      = Ok (Some femur_mask, Some tibia_mask).
Proof.
  split; [| split].
  - apply (proj1 (@slice_without_bone identity_lib (constant_slice 100) 200 100
                    eq_refl)).
    reflexivity.
  - intros segmentation_volume.
    apply (proj1 (proj2 (@slice_without_bone identity_lib (constant_slice 100)
                           200 100 eq_refl)) eq_refl (constant_volume 100)).
    reflexivity.
  - apply (proj2 (proj2 (@slice_without_bone identity_lib (constant_slice 300)
                           200 300 eq_refl))).
    reflexivity.
Defined.

(** ** The tibia landmark finder *)

Lemma filter_nil_iff {A : Type} (f : A -> bool) (l : list A) :
  filter f l = [] <-> forall x, In x l -> f x = false.
Proof.
  induction l as [|a l IH]; simpl.
  - split; [intros _ x [] | reflexivity].
  - destruct (f a) eqn:E; split.
    + discriminate.
    + intros H. specialize (H a (or_introl eq_refl)). congruence.
    + intros H x [<- | Hx]; [exact E | apply IH; assumption].
    + intros H. apply IH. intros x Hx. apply H. right. exact Hx.
Qed.

Lemma count_nonzero_zero (mask : ndarray bool) :
  count_nonzero mask = 0 <->
  forall p, in_bounds (shape mask) p = true -> data mask p = false.
Proof.
  unfold count_nonzero, np_where. split.
  - intros H p Hb.
    assert (E : filter (data mask) (ndindex (shape mask)) = [])
      by (apply length_zero_iff_nil; lia).
    rewrite filter_nil_iff in E. apply E. apply In_ndindex. exact Hb.
  - intros H.
    replace (filter (data mask) (ndindex (shape mask))) with (@nil index);
      [reflexivity |].
    symmetry. apply filter_nil_iff. intros p Hp. apply H. apply In_ndindex.
    exact Hp.
Qed.

Lemma lowest_None (points : list point_mm) : lowest points = None <-> points = [].
Proof. destruct points; simpl; split; congruence. Qed.

Lemma to_voxel_opt_None (voxel_sizes : voxel_spacing) (pt : option point_mm)
  (v : option index) :
  to_voxel_opt voxel_sizes pt = Ok v -> (v = None <-> pt = None).
Proof.
  destruct pt as [pt|]; simpl; intros H.
  - bind_inv H. inversion H. split; discriminate.
  - inversion H. split; reflexivity.
Qed.

(** C6: on a label volume without a voxel labelled 1 the tibia landmark
    finder returns [(None, None, None, None)]: no landmark in mm and none in
    voxel form. *)
Theorem no_tibia_no_landmark (seg : ndarray Z) (voxel_sizes : voxel_spacing) :
  (forall p, in_bounds (shape seg) p = true -> data seg p <> 1) ->
  find_tibia_lowest_points seg voxel_sizes = Ok (None, None, None, None).
Proof.
  intros H. unfold find_tibia_lowest_points.
  replace (count_nonzero (eq_scalar seg 1) =? 0) with true; [reflexivity |].
  symmetry. apply Z.eqb_eq. apply count_nonzero_zero.
  intros p Hb. simpl. apply Z.eqb_neq. apply H. exact Hb.
Qed.

Lemma no_tibia_no_landmark_witness :
  find_tibia_lowest_points one_background_voxel (0.8, 0.8, 1)%float
    = Ok (None, None, None, None).
Proof.
  apply (no_tibia_no_landmark one_background_voxel (0.8, 0.8, 1)%float).
  intros p _. discriminate.
Defined.

(** C7 fails on the code: the tibia voxel (3, 0, 0) with a spacing of 0.7 mm
    is sent to 2.0999999999999996 mm, the quotient by 0.7 is
    2.9999999999999996, and the truncation reports voxel (2, 0, 0). *)
Lemma round_trip_loses_voxel :
  to_mm (0.7, 0.7, 0.7)%float (3, 0, 0) = (2.0999999999999996, 0, 0)%float /\
  (2.0999999999999996 / 0.7 = 2.9999999999999996)%float /\
  to_voxel (0.7, 0.7, 0.7)%float (to_mm (0.7, 0.7, 0.7)%float (3, 0, 0))
    = Ok (2, 0, 0) /\
  find_tibia_lowest_points tibia_voxel_3 (0.7, 0.7, 0.7)%float
    = Ok (Some (2.0999999999999996, 0, 0)%float, None, Some (2, 0, 0), None).
Proof.
  repeat split; vm_compute; reflexivity.
Qed.

Lemma SFcompare_antisym (x y : spec_float) :
  SFcompare y x = option_map CompOpp (SFcompare x y).
Proof.
  destruct x as [[|]|[|]| |[|] m1 e1], y as [[|]|[|]| |[|] m2 e2];
    try reflexivity; simpl;
    rewrite (Z.compare_antisym e1 e2);
    destruct (e1 ?= e2) eqn:E; simpl; try reflexivity;
    change (Pos.compare_cont Eq m2 m1) with (Pos.compare m2 m1);
    change (Pos.compare_cont Eq m1 m2) with (Pos.compare m1 m2);
    rewrite (Pos.compare_antisym m1 m2);
    destruct (m1 ?= m2)%positive; reflexivity.
Qed.

Lemma is_nan_false (x : float) :
  Float64.is_nan x = false -> Prim2SF x <> S754_nan.
Proof.
  unfold Float64.is_nan. rewrite negb_false_iff, FloatAxioms.eqb_spec.
  intros H E. rewrite E in H. discriminate H.
Qed.

(** Two floats that are numbers are comparable: one is below the other or the
    other is at or below it. *)
Lemma not_below_at_or_above (x c : float) :
  Float64.is_nan x = false -> Float64.is_nan c = false ->
  PrimFloat.ltb x c = false -> PrimFloat.leb c x = true.
Proof.
  intros Hx Hc. apply is_nan_false in Hx. apply is_nan_false in Hc.
  rewrite ltb_spec, leb_spec. unfold SFltb, SFleb.
  rewrite (SFcompare_antisym (Prim2SF x) (Prim2SF c)).
  destruct (SFcompare (Prim2SF x) (Prim2SF c)) as [[| |]|] eqn:E; simpl;
    try reflexivity; try discriminate.
  intros _. exfalso.
  destruct (Prim2SF x) as [[|]|[|]| |[|] m1 e1], (Prim2SF c) as [[|]|[|]| |[|] m2 e2];
    simpl in E; try discriminate; congruence.
Qed.

Lemma In_tibia_points (seg : ndarray Z) (voxel_sizes : voxel_spacing) (p : index) :
  in_bounds (shape seg) p = true -> data seg p = 1 ->
  In (to_mm voxel_sizes p) (tibia_points seg voxel_sizes).
Proof.
  intros Hb Hp. unfold tibia_points, np_where. apply in_map.
  apply filter_In. split; [apply In_ndindex; exact Hb |].
  simpl. apply Z.eqb_eq. exact Hp.
Qed.

(** C10, as the code has it: on a label volume with a tibia voxel, when the
    finder returns, the medial result is [None] exactly when no tibia point
    has its X coordinate at or above the computed mean X, and the lateral
    result is [None] exactly when no tibia point has its X coordinate below
    the computed mean X; each voxel form is [None] exactly when its mm form
    is; and when the computed mean and the X coordinates are numbers (not
    NaN), the two results are not both [None]. *)
Theorem landmark_sides (seg : ndarray Z) (voxel_sizes : voxel_spacing)
  (medial lateral : option point_mm) (medial_voxel lateral_voxel : option index) :
  (exists p, in_bounds (shape seg) p = true /\ data seg p = 1) ->
  find_tibia_lowest_points seg voxel_sizes
    = Ok (medial, lateral, medial_voxel, lateral_voxel) ->
  (medial = None <->
   forall pt, In pt (tibia_points seg voxel_sizes) ->
              PrimFloat.leb (center_x seg voxel_sizes) (px pt) = false) /\
  (lateral = None <->
   forall pt, In pt (tibia_points seg voxel_sizes) ->
              PrimFloat.ltb (px pt) (center_x seg voxel_sizes) = false) /\
  (medial_voxel = None <-> medial = None) /\
  (lateral_voxel = None <-> lateral = None) /\
  (Float64.is_nan (center_x seg voxel_sizes) = false ->
   (forall pt, In pt (tibia_points seg voxel_sizes) ->
               Float64.is_nan (px pt) = false) ->
   medial <> None \/ lateral <> None).
Proof.
  intros [p [Hb Hp]] H. unfold find_tibia_lowest_points in H.
  destruct (count_nonzero (eq_scalar seg 1) =? 0) eqn:E.
  - apply Z.eqb_eq in E. rewrite count_nonzero_zero in E.
    specialize (E p Hb). simpl in E. apply Z.eqb_neq in E. contradiction.
  - apply bind_Ok_inv in H. destruct H as [lv [Hlv H]].
    apply bind_Ok_inv in H. destruct H as [mv [Hmv H]].
    inversion H; subst.
    rewrite !lowest_None, !filter_nil_iff.
    split; [reflexivity |]. split; [reflexivity |]. split; [| split].
    + rewrite (to_voxel_opt_None _ _ _ Hmv), lowest_None, filter_nil_iff.
      reflexivity.
    + rewrite (to_voxel_opt_None _ _ _ Hlv), lowest_None, filter_nil_iff.
      reflexivity.
    + intros Hc Hx.
      pose proof (In_tibia_points seg voxel_sizes p Hb Hp) as Hin.
      destruct (PrimFloat.ltb (px (to_mm voxel_sizes p)) (center_x seg voxel_sizes))
        eqn:L.
      * right. intros Hl. rewrite (Hl _ Hin) in L. discriminate L.
      * left. intros Hm.
        pose proof (not_below_at_or_above _ _ (Hx _ Hin) Hc L) as G.
        rewrite (Hm _ Hin) in G. discriminate G.
Qed.

Lemma landmark_sides_witness :
  (forall pt, In pt (tibia_points three_tibia_same_x (0.8, 0.8, 0.8)%float) ->
              PrimFloat.leb (center_x three_tibia_same_x (0.8, 0.8, 0.8)%float)
                            (px pt) = false) /\
  ~ (forall pt, In pt (tibia_points three_tibia_same_x (0.8, 0.8, 0.8)%float) ->
                PrimFloat.ltb (px pt)
                              (center_x three_tibia_same_x (0.8, 0.8, 0.8)%float)
                = false).
Proof.
  destruct (landmark_sides three_tibia_same_x (0.8, 0.8, 0.8)%float
              None (Some (0.8, 0, 0)%float) None (Some (1, 0, 0)))
    as (Hm & Hl & _).
  - exists (1, 0, 0). split; reflexivity.
  - vm_compute. reflexivity.
  - split.
    + apply Hm. reflexivity.
    + intros B. apply Hl in B. discriminate B.
Defined.

(** C10 as stated fails: three tibia voxels in the plane X = 1 with a spacing
    of 0.8 mm have the X coordinate 0.8 and the computed mean
    0.8000000000000002; no point is at or above the mean, and the medial
    result is [None] while the lateral one is not. *)
Lemma medial_side_empty :
  in_bounds (shape three_tibia_same_x) (1, 0, 0) = true /\
  data three_tibia_same_x (1, 0, 0) = 1 /\
  map px (tibia_points three_tibia_same_x (0.8, 0.8, 0.8)%float)
    = [0.8; 0.8; 0.8]%float /\
  center_x three_tibia_same_x (0.8, 0.8, 0.8)%float = 0.8000000000000002%float /\
  find_tibia_lowest_points three_tibia_same_x (0.8, 0.8, 0.8)%float
    = Ok (None, Some (0.8, 0, 0)%float, None, Some (1, 0, 0)).
Proof.
  repeat split; vm_compute; reflexivity.
Qed.

(** * Further properties of the code *)

(** ** The joint row and the split of a slice *)

Lemma half_between_thirds (h : Z) : 0 <= h -> h / 3 <= h / 2 <= 2 * h / 3.
Proof.
  intros Hh. split.
  - apply Z.div_le_compat_l; lia.
  - apply Z.div_le_lower_bound; [lia |].
    pose proof (Z.mul_div_le h 2 ltac:(lia)).
    pose proof (Z.div_pos h 2 Hh ltac:(lia)). lia.
Qed.

(** X1: for a slice of non-negative height the joint row lies between
    [height // 3] and [2 * height // 3], whatever the bone mask and the
    smoothing are: the fallback row [height // 2] is in this span too. *)
Theorem joint_within_middle_third {lib : ImageLib} (bone_mask : array2 bool)
  (height : Z) :
  0 <= height ->
  height / 3 <= find_joint_position bone_mask height <= 2 * height / 3.
Proof.
  intros Hh. unfold find_joint_position.
  set (smooth := gaussian_filter1d (sum_axis0 bone_mask) 5).
  destruct (joint_from_profile_cases smooth height) as [Hfall Hmin].
  destruct (Z_le_gt_dec (len (middle_profile smooth height)) 5) as [Hle | Hgt].
  - rewrite Hfall by (left; exact Hle). apply half_between_thirds. exact Hh.
  - destruct (filter (fun j =>
                (item (middle_profile smooth height) j
                   <? item (middle_profile smooth height) (j - 1)) &&
                (item (middle_profile smooth height) j
                   <? item (middle_profile smooth height) (j + 1)))
              (range 2 (len (middle_profile smooth height) - 2)))
      as [|j cs] eqn:E.
    + rewrite Hfall; [apply half_between_thirds; exact Hh |].
      right. intros j Hj. apply In_min_indices in Hj. rewrite E in Hj.
      destruct Hj.
    + destruct Hmin as (j' & _ & _ & _ & _ & Hin).
      * lia.
      * exists j. apply In_min_indices. rewrite E. left. reflexivity.
      * specialize (Hin Hh). lia.
Qed.

Lemma joint_within_middle_third_witness :
  21 / 3 <= @find_joint_position identity_lib
              (mk_array2 (3, 21) (fun rc => if snd rc =? 11 then false else true))
              21
         <= 2 * 21 / 3.
Proof.
  apply (@joint_within_middle_third identity_lib). lia.
Defined.

Lemma identity_lib_prunes_only : prunes_only identity_lib.
Proof. intros m k rc H. exact H. Qed.

(** X2: when the pruning routine only clears entries, the two masks that the
    slice segmenter returns lie inside the bone mask of the slice, and every
    femur pixel is in a column strictly before every tibia pixel: the masks
    never overlap. *)
Theorem segment_slice_split {lib : ImageLib} (slice_data : array2 float)
  (bone_threshold : float) (femur_mask tibia_mask : array2 bool) :
  prunes_only lib ->
  segment_slice slice_data bone_threshold
    = Ok (Some femur_mask, Some tibia_mask) ->
  let bone_mask := create_bone_mask slice_data bone_threshold 50 in
  (forall rc, data2 femur_mask rc = true -> data2 bone_mask rc = true) /\
  (forall rc, data2 tibia_mask rc = true -> data2 bone_mask rc = true) /\
  (forall rc rc', data2 femur_mask rc = true -> data2 tibia_mask rc' = true ->
                  snd rc < snd rc') /\
  (forall rc, data2 femur_mask rc && data2 tibia_mask rc = false).
Proof.
  intros Hp H bone_mask. unfold segment_slice in H. fold bone_mask in H.
  apply bind_Ok_inv in H. destruct H as [m [_ H]].
  destruct (PrimFloat.ltb m bone_threshold); [discriminate H |].
  inversion H; subst femur_mask tibia_mask; clear H.
  set (jp := find_joint_position bone_mask (snd (shape2 slice_data))).
  assert (Hf : forall rc,
             data2 (remove_small_objects2 (clear_cols_from bone_mask jp) 100) rc = true ->
             data2 bone_mask rc = true /\
             snd rc < slice_bound (snd (shape2 bone_mask)) jp).
  { intros rc Hrc. apply Hp in Hrc. unfold clear_cols_from in Hrc. simpl in Hrc.
    destruct (slice_bound (snd (shape2 bone_mask)) jp <=? snd rc) eqn:E;
      [discriminate Hrc |]. apply Z.leb_gt in E. split; assumption. }
  assert (Ht : forall rc,
             data2 (remove_small_objects2 (clear_cols_before bone_mask jp) 100) rc = true ->
             data2 bone_mask rc = true /\
             slice_bound (snd (shape2 bone_mask)) jp <= snd rc).
  { intros rc Hrc. apply Hp in Hrc. unfold clear_cols_before in Hrc. simpl in Hrc.
    destruct (snd rc <? slice_bound (snd (shape2 bone_mask)) jp) eqn:E;
      [discriminate Hrc |]. apply Z.ltb_ge in E. split; assumption. }
  split; [intros rc Hrc; apply (Hf rc Hrc) |].
  split; [intros rc Hrc; apply (Ht rc Hrc) |].
  split.
  - intros rc rc' H1 H2. apply Hf in H1. apply Ht in H2. lia.
  - intros rc.
    destruct (data2 (remove_small_objects2 (clear_cols_from bone_mask jp) 100) rc) eqn:E1;
      [| reflexivity].
    destruct (data2 (remove_small_objects2 (clear_cols_before bone_mask jp) 100) rc) eqn:E2;
      [| reflexivity].
    apply Hf in E1. apply Ht in E2. lia.
Qed.

Lemma segment_slice_split_witness :
  exists femur_mask tibia_mask,
    @segment_slice identity_lib (constant_slice 300) 200
      = Ok (Some femur_mask, Some tibia_mask) /\
    (forall rc rc', data2 femur_mask rc = true -> data2 tibia_mask rc' = true ->
                    snd rc < snd rc') /\
    (forall rc, data2 femur_mask rc && data2 tibia_mask rc = false).
Proof.
  eexists. eexists. split; [reflexivity |].
  destruct (@segment_slice_split identity_lib (constant_slice 300) 200 _ _
              identity_lib_prunes_only eq_refl) as (_ & _ & H3 & H4).
  split; [exact H3 | exact H4].
Defined.

(** ** The slice loops *)

Lemma norm_index_Ok (n i j : Z) :
  norm_index n i = Ok j ->
  0 <= j < n /\ (0 <= i -> j = i) /\ (i < 0 -> j = n + i).
Proof.
  unfold norm_index. destruct (in_range n i) eqn:E.
  - apply in_range_spec in E. intros H. inversion H. subst. lia.
  - destruct ((- n <=? i) && (i <? 0)) eqn:E'; [| discriminate].
    apply andb_true_iff in E'. destruct E' as [E1 E2].
    apply Z.leb_le in E1. apply Z.ltb_lt in E2.
    intros H. inversion H. subst. lia.
Qed.

(** An index that Python accepts on an axis of length [n]. *)
Lemma norm_index_cases (n i : Z) :
  (- n <= i < n /\ exists j, norm_index n i = Ok j) \/
  (~ (- n <= i < n) /\ norm_index n i = Raise IndexError).
Proof.
  unfold norm_index. destruct (in_range n i) eqn:E.
  - apply in_range_spec in E. left. split; [lia | eauto].
  - destruct ((- n <=? i) && (i <? 0)) eqn:E'.
    + apply andb_true_iff in E'. destruct E' as [E1 E2].
      apply Z.leb_le in E1. apply Z.ltb_lt in E2. left. split; [lia | eauto].
    + right. split; [| reflexivity]. intros H.
      apply andb_false_iff in E'.
      assert (in_range n i = true -> False) by (rewrite E; discriminate).
      rewrite in_range_spec in H0.
      destruct E' as [E' | E']; [apply Z.leb_gt in E' | apply Z.ltb_ge in E']; lia.
Qed.

Lemma assign_slice_where_Ok {A : Type} (a a' : ndarray A) (i : Z)
  (mask : array2 bool) (v : A) :
  assign_slice_where a i mask v = Ok a' ->
  exists j,
    norm_index (snd (fst (shape a))) i = Ok j /\
    shape a' = shape a /\
    forall x y z,
      data a' (x, y, z)
      = if (y =? j) && data2 mask (x, z) then v else data a (x, y, z).
Proof.
  unfold assign_slice_where. destruct (shape a) as [[nx ny] nz] eqn:Es.
  intros H. apply bind_Ok_inv in H. destruct H as [j [Hj H]].
  inversion H; subst. exists j. simpl. auto.
Qed.

Lemma painted_in_refl (v : ndarray Z) : painted_in v v [].
Proof. split; [reflexivity | intros; left; reflexivity]. Qed.

Lemma painted_in_step (v0 v1 v : ndarray Z) (i : Z) (l : list Z) :
  painted_in v0 v1 [i] -> painted_in v1 v l -> painted_in v0 v (i :: l).
Proof.
  intros [S1 P1] [S2 P2]. split; [congruence |].
  intros x y z. destruct (P2 x y z) as [E | [Hl [j [Hj Hn]]]].
  - rewrite E. destruct (P1 x y z) as [E1 | [Hl [j [Hj Hn]]]]; [left; exact E1 |].
    right. split; [exact Hl |]. exists i. destruct Hj as [<- | []].
    split; [left; reflexivity | exact Hn].
  - right. split; [exact Hl |]. exists j. rewrite S1 in Hn.
    split; [right; exact Hj | exact Hn].
Qed.

(** Painting the tibia mask with 1, then the femur mask with 2, in slice [i]. *)
Lemma paint_two_masks (v v' : ndarray Z) (i : Z) (tibia_mask femur_mask : array2 bool) :
  (vol <- assign_slice_where v i tibia_mask 1 ;;
   assign_slice_where vol i femur_mask 2) = Ok v' ->
  painted_in v v' [i].
Proof.
  intros H. apply bind_Ok_inv in H. destruct H as [v1 [H1 H2]].
  apply assign_slice_where_Ok in H1. destruct H1 as (j1 & N1 & S1 & D1).
  apply assign_slice_where_Ok in H2. destruct H2 as (j2 & N2 & S2 & D2).
  rewrite S1 in N2. assert (j2 = j1) by congruence. subst j2.
  split; [congruence |]. intros x y z. rewrite D2, D1.
  destruct (y =? j1) eqn:E; simpl.
  - apply Z.eqb_eq in E. subst y.
    destruct (data2 femur_mask (x, z)).
    + right. split; [right; reflexivity |]. exists i.
      split; [left; reflexivity | exact N1].
    + destruct (data2 tibia_mask (x, z)); [| left; reflexivity].
      right. split; [left; reflexivity |]. exists i.
      split; [left; reflexivity | exact N1].
  - left. reflexivity.
Qed.

Lemma fold_bind_Raise {A B : Type} (f : A -> B -> result A) (l : list B) (e : exn) :
  fold_left (fun acc i => v <- acc ;; f v i) l (Raise e) = Raise e.
Proof. induction l as [|i l IH]; simpl; [reflexivity | exact IH]. Qed.

Lemma fold_painted (f : ndarray Z -> Z -> result (ndarray Z)) :
  (forall v i v', f v i = Ok v' -> painted_in v v' [i]) ->
  forall l v0 v,
    fold_left (fun acc i => w <- acc ;; f w i) l (Ok v0) = Ok v ->
    painted_in v0 v l.
Proof.
  intros Hf l. induction l as [|i l IH]; intros v0 v H; simpl in H.
  - inversion H. apply painted_in_refl.
  - destruct (f v0 i) as [v1|e] eqn:E.
    + apply (painted_in_step v0 v1 v i l); [apply Hf; exact E | apply IH; exact H].
    + rewrite fold_bind_Raise in H. discriminate H.
Qed.

Lemma segment_slice_into_painted {lib : ImageLib} (volume : ndarray float)
  (v v' : ndarray Z) (i : Z) :
  segment_slice_into volume v i = Ok v' -> painted_in v v' [i].
Proof.
  unfold segment_slice_into. intros H.
  apply bind_Ok_inv in H. destruct H as [sl [_ H]].
  apply bind_Ok_inv in H. destruct H as [masks [_ H]].
  unfold paint_slice in H. destruct masks as [[femur|] [tibia|]];
    try (inversion H; split; [reflexivity | intros; left; reflexivity]).
  apply paint_two_masks in H. exact H.
Qed.

(** X3: when the slice loop of [segment_knee] returns, the label volume has
    the shape of the intensity volume, holds only the labels 0, 1 and 2, and
    (for a non-negative start) every voxel with a label 1 or 2 lies in a
    slice of the range [start_slice, end_slice) and of the volume: no slice
    outside the range is painted. *)
Theorem segment_slices_paints_range {lib : ImageLib} (volume : ndarray float)
  (start_slice end_slice : Z) (vol : ndarray Z) :
  segment_slices volume start_slice end_slice = Ok vol ->
  shape vol = shape volume /\
  forall x y z,
    is_label (data vol (x, y, z)) /\
    (0 <= start_slice -> data vol (x, y, z) <> 0 ->
     start_slice <= y < end_slice /\ 0 <= y < snd (fst (shape volume))).
Proof.
  unfold segment_slices. intros H.
  apply (fold_painted (segment_slice_into volume)) in H;
    [| intros v i v'; apply segment_slice_into_painted].
  destruct H as [Hs Hp]. split; [exact Hs |]. intros x y z.
  destruct (Hp x y z) as [E | [Hl [i [Hi Hn]]]].
  - split; [left; exact E |]. intros _ Hne. simpl in E. contradiction.
  - split; [unfold is_label; tauto |]. intros Hstart _.
    apply In_range in Hi. apply norm_index_Ok in Hn.
    destruct Hn as (Hy & Hpos & _). simpl in Hy.
    rewrite (Hpos ltac:(lia)). split; [lia |]. rewrite <- (Hpos ltac:(lia)).
    exact Hy.
Qed.

Lemma segment_slices_paints_range_witness :
  exists vol,
    @segment_slices identity_lib (constant_volume 300) 0 1 = Ok vol /\
    shape vol = shape (constant_volume 300) /\
    forall x y z,
      is_label (data vol (x, y, z)) /\
      (0 <= 0 -> data vol (x, y, z) <> 0 ->
       0 <= y < 1 /\ 0 <= y < snd (fst (shape (constant_volume 300)))).
Proof.
  eexists. split; [reflexivity |].
  apply (@segment_slices_paints_range identity_lib (constant_volume 300) 0 1).
  reflexivity.
Defined.

(** A loop over slice indices returns when every index is one that Python
    accepts, and raises [IndexError] at the first one that is not. *)
Lemma fold_outcome (f : ndarray Z -> Z -> result (ndarray Z)) (ny : Z)
  (good : ndarray Z -> Prop) :
  (forall v i j, good v -> norm_index ny i = Ok j ->
                 exists v', f v i = Ok v' /\ good v') ->
  (forall v i, good v -> norm_index ny i = Raise IndexError ->
               f v i = Raise IndexError) ->
  forall l v0, good v0 ->
    (Forall (fun i => - ny <= i < ny) l ->
     exists v, fold_left (fun acc i => w <- acc ;; f w i) l (Ok v0) = Ok v /\
               good v) /\
    (Exists (fun i => ~ (- ny <= i < ny)) l ->
     fold_left (fun acc i => w <- acc ;; f w i) l (Ok v0) = Raise IndexError).
Proof.
  intros Hok Hraise l. induction l as [|i l IH]; intros v0 Hg.
  - split; [intros _; exists v0; split; [reflexivity | exact Hg] |].
    intros H. inversion H.
  - simpl. destruct (norm_index_cases ny i) as [[Hi [j Hj]] | [Hi Hj]].
    + destruct (Hok v0 i j Hg Hj) as [v1 [E1 G1]]. rewrite E1.
      destruct (IH v1 G1) as [IHok IHraise]. split.
      * intros H. inversion H; subst. apply IHok. assumption.
      * intros H. inversion H; subst; [contradiction |]. apply IHraise. assumption.
    + rewrite (Hraise v0 i Hg Hj). rewrite fold_bind_Raise. split.
      * intros H. inversion H; subst. contradiction.
      * intros _. reflexivity.
Qed.

Lemma fallback_slice_outcome {lib : ImageLib} (volume : ndarray float)
  (v : ndarray Z) (i : Z) :
  shape v = shape volume ->
  (forall j, norm_index (snd (fst (shape volume))) i = Ok j ->
             exists v', fallback_slice volume v i = Ok v' /\
                        shape v' = shape volume) /\
  (norm_index (snd (fst (shape volume))) i = Raise IndexError ->
   fallback_slice volume v i = Raise IndexError).
Proof.
  intros Hs. unfold fallback_slice, slice_y, assign_slice_where. rewrite Hs.
  destruct (shape volume) as [[nx ny] nz]. simpl. split.
  - intros j Hj. rewrite Hj. simpl. rewrite Hj. simpl.
    eexists. split; reflexivity.
  - intros Hj. rewrite Hj. reflexivity.
Qed.

(** X4: the fallback segmenter returns, with a volume of the shape of its
    input, when every index of [range(start_slice, end_slice)] is one that
    Python accepts on the slicing axis (from [-ny] to [ny - 1]); when some
    index of the range is not, it raises [IndexError]. *)
Theorem fallback_segmentation_outcome {lib : ImageLib} (volume : ndarray float)
  (start_slice end_slice : Z) :
  let ny := snd (fst (shape volume)) in
  ((forall i, start_slice <= i < end_slice -> - ny <= i < ny) ->
   exists out,
     fallback_segmentation volume start_slice end_slice = Ok out /\
     shape out = shape volume) /\
  ((exists i, start_slice <= i < end_slice /\ ~ (- ny <= i < ny)) ->
   fallback_segmentation volume start_slice end_slice = Raise IndexError).
Proof.
  intros ny. unfold fallback_segmentation.
  destruct (fold_outcome (fallback_slice volume) ny
              (fun v => shape v = shape volume)
              (fun v i j Hg Hj => proj1 (fallback_slice_outcome volume v i Hg) j Hj)
              (fun v i Hg Hj => proj2 (fallback_slice_outcome volume v i Hg) Hj)
              (range start_slice end_slice) (zeros_like volume) eq_refl)
    as [Hok Hraise].
  split.
  - intros Hall. destruct Hok as [v [E _]].
    + apply Forall_forall. intros i Hi. apply Hall. apply In_range. exact Hi.
    + rewrite E. simpl. eexists. split; reflexivity.
  - intros [i [Hi Hbad]]. rewrite Hraise; [reflexivity |].
    apply Exists_exists. exists i. split; [apply In_range; exact Hi | exact Hbad].
Qed.

Lemma fallback_segmentation_outcome_witness :
  (exists out,
     @fallback_segmentation identity_lib (constant_volume 300) (-1) 1 = Ok out /\
     shape out = shape (constant_volume 300)) /\
  @fallback_segmentation identity_lib (constant_volume 300) 0 2 = Raise IndexError.
Proof.
  split.
  - apply (proj1 (@fallback_segmentation_outcome identity_lib
                    (constant_volume 300) (-1) 1)).
    simpl. intros i Hi. lia.
  - apply (proj2 (@fallback_segmentation_outcome identity_lib
                    (constant_volume 300) 0 2)).
    exists 1. simpl. lia.
Defined.

Lemma ndindex2_nil_iff (nr nc : Z) :
  ndindex2 (nr, nc) = [] <-> nr <= 0 \/ nc <= 0.
Proof.
  unfold ndindex2. split.
  - intros H. destruct (Z_le_gt_dec nr 0) as [|Hr]; [left; assumption |].
    destruct (Z_le_gt_dec nc 0) as [|Hc]; [right; assumption |]. exfalso.
    assert (Hin : In (0, 0) (flat_map (fun r => map (fun c => (r, c)) (zrange nc))
                                      (zrange nr))).
    { apply in_flat_map. exists 0. split; [apply In_zrange; lia |].
      apply in_map. apply In_zrange. lia. }
    rewrite H in Hin. destruct Hin.
  - intros [H | H].
    + unfold zrange at 2. replace (Z.to_nat nr) with O by lia. reflexivity.
    + unfold zrange at 1. replace (Z.to_nat nc) with O by lia. simpl.
      induction (zrange nr); simpl; auto.
Qed.

Lemma max2_outcome (a : array2 float) :
  (0 < fst (shape2 a) /\ 0 < snd (shape2 a) /\ exists m, max2 a = Ok m) \/
  ((fst (shape2 a) <= 0 \/ snd (shape2 a) <= 0) /\ max2 a = Raise ValueError).
Proof.
  unfold max2. destruct (shape2 a) as [nr nc] eqn:Es. cbn [fst snd].
  destruct (ndindex2 (nr, nc)) as [|rc l] eqn:E.
  - right. split; [apply ndindex2_nil_iff; exact E | reflexivity].
  - left. assert (~ (nr <= 0 \/ nc <= 0)).
    { intros H. apply ndindex2_nil_iff in H. congruence. }
    split; [lia |]. split; [lia |]. simpl. eauto.
Qed.

Lemma segment_slice_into_outcome {lib : ImageLib} (volume : ndarray float)
  (v : ndarray Z) (i : Z) :
  shape v = shape volume ->
  let '(nx, ny, nz) := shape volume in
  (0 < nx -> 0 < nz -> forall j, norm_index ny i = Ok j ->
   exists v', segment_slice_into volume v i = Ok v' /\ shape v' = shape volume) /\
  (norm_index ny i = Raise IndexError ->
   segment_slice_into volume v i = Raise IndexError) /\
  (nx <= 0 \/ nz <= 0 -> forall j, norm_index ny i = Ok j ->
   segment_slice_into volume v i = Raise ValueError).
Proof.
  intros Hs. destruct (shape volume) as [[nx ny] nz] eqn:Ev.
  unfold segment_slice_into, slice_y. rewrite Ev.
  split; [| split].
  - intros Hx Hz j Hj. rewrite Hj. simpl.
    unfold segment_slice.
    match goal with |- context [max2 ?a] =>
      destruct (max2_outcome a) as [(_ & _ & [m Hm]) | [Hbad _]];
        [rewrite Hm | simpl in Hbad; lia] end.
    simpl. destruct (PrimFloat.ltb m 200); simpl.
    + exists v. split; [reflexivity | exact Hs].
    + unfold assign_slice_where. rewrite Hs, Hj. simpl. rewrite Hj. simpl.
      eexists. split; reflexivity.
  - intros Hj. rewrite Hj. reflexivity.
  - intros Hempty j Hj. rewrite Hj. simpl. unfold segment_slice.
    match goal with |- context [max2 ?a] =>
      destruct (max2_outcome a) as [(H1 & H2 & _) | [_ Hm]];
        [simpl in H1, H2; lia | rewrite Hm] end.
    reflexivity.
Qed.

Lemma range_cons (a b : Z) : a < b -> exists l, range a b = a :: l.
Proof.
  intros H. unfold range, zrange.
  destruct (Z.to_nat (b - a)) as [|n] eqn:E; [lia |].
  simpl. rewrite Z.add_0_r. eexists. reflexivity.
Qed.

(** X5: on a volume whose slices are not empty, the slice loop of
    [segment_knee] returns when every index of the range is one that Python
    accepts on the slicing axis, and raises [IndexError] when some index is
    not; on a volume with an empty slice axis, a non-empty range that starts
    at an accepted index raises [ValueError] ([np.max] of an empty slice). *)
Theorem segment_slices_outcome {lib : ImageLib} (volume : ndarray float)
  (start_slice end_slice : Z) :
  let '(nx, ny, nz) := shape volume in
  (0 < nx -> 0 < nz ->
   (forall i, start_slice <= i < end_slice -> - ny <= i < ny) ->
   exists vol, segment_slices volume start_slice end_slice = Ok vol) /\
  (0 < nx -> 0 < nz ->
   (exists i, start_slice <= i < end_slice /\ ~ (- ny <= i < ny)) ->
   segment_slices volume start_slice end_slice = Raise IndexError) /\
  (nx <= 0 \/ nz <= 0 ->
   start_slice < end_slice -> - ny <= start_slice < ny ->
   segment_slices volume start_slice end_slice = Raise ValueError).
Proof.
  destruct (shape volume) as [[nx ny] nz] eqn:Ev.
  assert (Hstep : forall v i, shape v = shape volume ->
            (0 < nx -> 0 < nz -> forall j, norm_index ny i = Ok j ->
             exists v', segment_slice_into volume v i = Ok v' /\
                        shape v' = shape volume) /\
            (norm_index ny i = Raise IndexError ->
             segment_slice_into volume v i = Raise IndexError) /\
            (nx <= 0 \/ nz <= 0 -> forall j, norm_index ny i = Ok j ->
             segment_slice_into volume v i = Raise ValueError)).
  { intros v i Hv. pose proof (segment_slice_into_outcome volume v i Hv) as H.
    rewrite Ev in H |- *. exact H. }
  unfold segment_slices. split; [| split].
  - intros Hx Hz Hall.
    destruct (fold_outcome (segment_slice_into volume) ny
                (fun v => shape v = shape volume)
                (fun v i j Hg Hj => proj1 (Hstep v i Hg) Hx Hz j Hj)
                (fun v i Hg Hj => proj1 (proj2 (Hstep v i Hg)) Hj)
                (range start_slice end_slice) (zeros_like volume) eq_refl)
      as [Hok _].
    destruct Hok as [v [E _]]; [| exists v; exact E].
    apply Forall_forall. intros i Hi. apply Hall. apply In_range. exact Hi.
  - intros Hx Hz [i [Hi Hbad]].
    destruct (fold_outcome (segment_slice_into volume) ny
                (fun v => shape v = shape volume)
                (fun v i j Hg Hj => proj1 (Hstep v i Hg) Hx Hz j Hj)
                (fun v i Hg Hj => proj1 (proj2 (Hstep v i Hg)) Hj)
                (range start_slice end_slice) (zeros_like volume) eq_refl)
      as [_ Hraise].
    apply Hraise. apply Exists_exists. exists i.
    split; [apply In_range; exact Hi | exact Hbad].
  - intros Hempty Hlt Hvalid.
    destruct (range_cons start_slice end_slice Hlt) as [l ->]. simpl.
    destruct (norm_index_cases ny start_slice) as [[_ [j Hj]] | [Hbad _]];
      [| contradiction].
    rewrite (proj2 (proj2 (Hstep (zeros_like volume) start_slice eq_refl))
               Hempty j Hj).
    apply fold_bind_Raise.
Qed.

Lemma segment_slices_outcome_witness :
  (exists vol, @segment_slices identity_lib (constant_volume 300) 0 1 = Ok vol) /\
  @segment_slices identity_lib (constant_volume 300) 0 2 = Raise IndexError /\
  @segment_slices identity_lib (mk_ndarray (0, 2, 2) (fun _ => 300%float)) 0 1
    = Raise ValueError.
Proof.
  split; [| split].
  - apply (proj1 (@segment_slices_outcome identity_lib (constant_volume 300) 0 1));
      simpl; lia.
  - apply (proj1 (proj2 (@segment_slices_outcome identity_lib
                           (constant_volume 300) 0 2))); simpl; try lia.
    exists 1. lia.
  - apply (proj2 (proj2 (@segment_slices_outcome identity_lib
                           (mk_ndarray (0, 2, 2) (fun _ => 300%float)) 0 1)));
      simpl; lia.
Defined.

(** ** The mask expander: reach of the dilation, distances at or below zero *)

Lemma In_box_offsets (k d : Z) :
  In d (Ndimage.box_offsets k) <-> - (k / 2) <= d < k - k / 2.
Proof.
  unfold Ndimage.box_offsets. rewrite in_map_iff. split.
  - intros [j [E Hj]]. apply In_zrange in Hj. lia.
  - intros H. exists (d + k / 2). split; [lia | apply In_zrange; lia].
Qed.

(** A voxel set by the dilation has a set voxel of the input in its box. *)
Lemma binary_dilation_inv (m : ndarray bool) (ks : Z * Z * Z) (p : index) :
  data (Ndimage.binary_dilation m ks) p = true ->
  exists q, in_bounds (shape m) q = true /\ data m q = true /\ within_box ks p q.
Proof.
  destruct ks as [[kx ky] kz], p as [[x y] z]. simpl. intros H.
  apply existsb_exists in H. destruct H as [dx [Hx H]].
  apply existsb_exists in H. destruct H as [dy [Hy H]].
  apply existsb_exists in H. destruct H as [dz [Hz H]].
  apply andb_true_iff in H. destruct H as [Hb Hq].
  exists (x - dx, y - dy, z - dz). split; [exact Hb |]. split; [exact Hq |].
  apply In_box_offsets in Hx, Hy, Hz. unfold within_box. lia.
Qed.

Lemma expand_with_kernel_reach (seg : ndarray Z) (ks : Z * Z * Z) (p : index)
  (label : Z) :
  label = 1 \/ label = 2 ->
  data (expand_with_kernel seg ks) p = label ->
  exists q, in_bounds (shape seg) q = true /\ data seg q = label /\
            within_box ks p q.
Proof.
  intros Hl H. unfold expand_with_kernel in H.
  cbn [data assign_where assign_where_from mask_and zeros_like] in H.
  destruct (data (Ndimage.binary_dilation (eq_scalar seg 1) ks) p) eqn:T;
    destruct (data (Ndimage.binary_dilation (eq_scalar seg 2) ks) p) eqn:F;
    cbn [andb] in H;
    repeat match type of H with
           | context [if ?c then _ else _] => destruct c
           end;
    try (destruct Hl; subst label; discriminate).
  all: try (apply binary_dilation_inv in F; destruct F as (q & Hb & Hq & Hw);
            exists q; simpl in Hb, Hq; apply Z.eqb_eq in Hq;
            subst label; auto; fail).
  all: try (apply binary_dilation_inv in T; destruct T as (q & Hb & Hq & Hw);
            exists q; simpl in Hb, Hq; apply Z.eqb_eq in Hq;
            subst label; auto; fail).
Qed.

(** X6: the mask expander invents no label: when it returns, the output has
    the shape of the input, and every voxel labelled 1 or 2 in the output
    lies within the dilation box (the kernel sizes computed from the spacing)
    of a voxel of the input array that had this label. *)
Theorem expand_invents_no_label (seg : ndarray Z) (voxel_sizes : voxel_spacing)
  (expansion_mm : float) (out : ndarray Z) :
  expand_segmentation seg voxel_sizes expansion_mm = Ok out ->
  exists ks,
    kernel_sizes voxel_sizes expansion_mm = Ok ks /\
    shape out = shape seg /\
    forall p label, label = 1 \/ label = 2 -> data out p = label ->
      exists q, in_bounds (shape seg) q = true /\ data seg q = label /\
                within_box ks p q.
Proof.
  unfold expand_segmentation. intros H.
  apply bind_Ok_inv in H. destruct H as [ks [Hk H]]. inversion H; subst out.
  exists ks. split; [exact Hk |]. split; [reflexivity |].
  intros p label. apply expand_with_kernel_reach.
Qed.

Lemma expand_invents_no_label_witness :
  exists ks,
    kernel_sizes (0.5, 0.5, 1)%float 2 = Ok ks /\
    shape centre_tibia_2mm = shape centre_tibia /\
    forall p label, label = 1 \/ label = 2 -> data centre_tibia_2mm p = label ->
      exists q, in_bounds (shape centre_tibia) q = true /\
                data centre_tibia q = label /\ within_box ks p q.
Proof.
  apply (expand_invents_no_label centre_tibia (0.5, 0.5, 1)%float 2).
  reflexivity.
Defined.

(** A volume without a label in the array has none after the expansion. *)
Lemma expand_with_kernel_no_label (seg : ndarray Z) (ks : Z * Z * Z) (label : Z) :
  label = 1 \/ label = 2 ->
  (forall q, in_bounds (shape seg) q = true -> data seg q <> label) ->
  forall p, data (expand_with_kernel seg ks) p <> label.
Proof.
  intros Hl Hnone p H.
  destruct (expand_with_kernel_reach seg ks p label Hl H) as (q & Hb & Hq & _).
  exact (Hnone q Hb Hq).
Qed.

(** The sign of a rounded result is the sign that was asked for. *)
Lemma binary_round_aux_sign (prec emax : Z) (sx : bool) (mx ex : Z)
  (lx : location) :
  binary_round_aux prec emax sx mx ex lx = S754_zero sx \/
  (exists m e, binary_round_aux prec emax sx mx ex lx = S754_finite sx m e) \/
  binary_round_aux prec emax sx mx ex lx = S754_infinity sx \/
  binary_round_aux prec emax sx mx ex lx = S754_nan.
Proof.
  unfold binary_round_aux.
  destruct (shr_fexp prec emax mx ex lx) as [mrs' e'].
  destruct (shr_fexp prec emax _ e' loc_Exact) as [mrs'' e''].
  destruct (shr_m mrs'') as [|m|m]; [left; reflexivity | | right; right; right; reflexivity].
  destruct (e'' <=? emax - prec); [right; left; eauto | right; right; left; reflexivity].
Qed.

Lemma int_ceil_negative_finite (m : positive) (e k : Z) :
  (if 0 <=? e then - (Z.pos m * 2 ^ e) else - (Z.pos m / 2 ^ (- e))) = k ->
  k <= 0.
Proof.
  destruct (0 <=? e) eqn:E; intros <-.
  - apply Z.leb_le in E. assert (0 < 2 ^ e) by (apply Z.pow_pos_nonneg; lia). nia.
  - apply Z.leb_gt in E. assert (0 < 2 ^ (- e)) by (apply Z.pow_pos_nonneg; lia).
    assert (0 <= Z.pos m / 2 ^ (- e)) by (apply Z.div_pos; lia). lia.
Qed.

(** A distance at or below zero over a positive spacing has a ceiling at or
    below zero. *)
Lemma int_ceil_quotient_nonpos (expansion_mm vs : float) (k : Z) :
  PrimFloat.leb expansion_mm 0 = true -> PrimFloat.ltb 0 vs = true ->
  Float64.int_ceil (expansion_mm / vs) = Ok k -> k <= 0.
Proof.
  unfold Float64.int_ceil. rewrite leb_spec, ltb_spec, FloatAxioms.div_spec.
  change (Prim2SF 0) with (S754_zero false).
  destruct (Prim2SF expansion_mm) as [[|]|[|]| |[|] m1 e1];
    destruct (Prim2SF vs) as [[|]|[|]| |[|] m2 e2];
    try discriminate; intros _ _;
    cbn -[Z.mul Z.div Z.pow Z.add Z.sub Z.opp binary_round_aux SFdiv_core_binary];
    try (intros H; inversion H; lia).
  destruct (SFdiv_core_binary prec emax (Z.pos m1) e1 (Z.pos m2) e2) as [[mz ez] lz].
  destruct (binary_round_aux_sign prec emax true mz ez lz)
    as [-> | [(m & e & ->) | [-> | ->]]]; try discriminate.
  - intros H. inversion H. lia.
  - intros H. inversion H. eapply int_ceil_negative_finite. reflexivity.
Qed.

Lemma kernel_size_nonpos (expansion_mm vs : float) (k : Z) :
  PrimFloat.leb expansion_mm 0 = true -> PrimFloat.ltb 0 vs = true ->
  kernel_size expansion_mm vs = Ok k -> k = 1.
Proof.
  intros He Hv H. unfold kernel_size in H.
  apply bind_Ok_inv in H. destruct H as [ks [Hks H]].
  apply (int_ceil_quotient_nonpos _ _ _ He Hv) in Hks. inversion H. lia.
Qed.

(** The expander with a box of one voxel returns a label volume unchanged. *)
Lemma expand_unit_kernel (seg : ndarray Z) :
  label_volume seg -> array_equal (expand_with_kernel seg (1, 1, 1)) seg.
Proof.
  intros Hl. split; [reflexivity |]. intros p Hb.
  change (shape (expand_with_kernel seg (1, 1, 1))) with (shape seg) in Hb.
  unfold expand_with_kernel.
  cbn [data assign_where assign_where_from mask_and zeros_like].
  rewrite !binary_dilation_unit. cbn [shape data eq_scalar]. rewrite Hb.
  destruct (Hl p Hb) as [Z0 | [Z1 | Z2]]; rewrite ?Z0, ?Z1, ?Z2; reflexivity.
Qed.

(** X7: a distance at or below zero never erodes: with positive spacings and
    [expansion_mm <= 0], whenever the mask expander returns, its kernel has
    one voxel along each axis and the output is the input label volume. *)
Theorem nonpositive_expansion_identity (seg : ndarray Z) (vx vy vz : float)
  (expansion_mm : float) (out : ndarray Z) :
  PrimFloat.leb expansion_mm 0 = true ->
  PrimFloat.ltb 0 vx = true ->
  PrimFloat.ltb 0 vy = true ->
  PrimFloat.ltb 0 vz = true ->
  label_volume seg ->
  expand_segmentation seg (vx, vy, vz) expansion_mm = Ok out ->
  kernel_sizes (vx, vy, vz) expansion_mm = Ok (1, 1, 1) /\
  array_equal out seg.
Proof.
  intros He Hx Hy Hz Hl H. unfold expand_segmentation in H.
  apply bind_Ok_inv in H. destruct H as [[[kx ky] kz] [Hk H]].
  inversion H; subst out; clear H.
  pose proof Hk as Hk'. unfold kernel_sizes in Hk'.
  apply bind_Ok_inv in Hk'. destruct Hk' as [x [Ex Hk']].
  apply bind_Ok_inv in Hk'. destruct Hk' as [y [Ey Hk']].
  apply bind_Ok_inv in Hk'. destruct Hk' as [z [Ez Hk']].
  inversion Hk'; subst.
  apply (kernel_size_nonpos _ _ _ He Hx) in Ex.
  apply (kernel_size_nonpos _ _ _ He Hy) in Ey.
  apply (kernel_size_nonpos _ _ _ He Hz) in Ez. subst.
  split; [exact Hk |]. apply expand_unit_kernel. exact Hl.
Qed.

Lemma nonpositive_expansion_identity_witness :
  kernel_sizes (0.5, 0.5, 1)%float (-3) = Ok (1, 1, 1) /\
  array_equal (expand_with_kernel centre_tibia (1, 1, 1)) centre_tibia.
Proof.
  apply (nonpositive_expansion_identity centre_tibia 0.5 0.5 1 (-3)).
  - reflexivity.
  - reflexivity.
  - reflexivity.
  - reflexivity.
  - solve_label_volume.
  - reflexivity.
Defined.

(** ** The mask randomizer: the clamp and the draws *)

Lemma clamp_not_below_one (rv : float) :
  PrimFloat.ltb rv 1 = false -> clamp rv = 1%float.
Proof.
  intros H. unfold clamp, Float64.py_min. rewrite H. reflexivity.
Qed.

Lemma clamp_at_most_zero (rv : float) :
  PrimFloat.leb rv 0 = true -> clamp rv = 0%float.
Proof.
  intros H. unfold clamp, Float64.py_min, Float64.py_max.
  assert (H1 : PrimFloat.ltb rv 1 = true /\ PrimFloat.ltb 0 rv = false).
  { revert H. rewrite leb_spec, !ltb_spec.
    change (Prim2SF 0) with (S754_zero false).
    replace (Prim2SF 1) with (S754_finite false 4503599627370496 (-52))
      by (vm_compute; reflexivity).
    destruct (Prim2SF rv) as [[|]|[|]| |[|] m e]; try discriminate;
      intros _; split; reflexivity. }
  destruct H1 as [H1 H2]. rewrite H1, H2. reflexivity.
Qed.

(** X8: the random value is clamped before use: a value that is not below
    1.0 (a NaN included) acts as 1.0, and a value at or below 0.0 acts as
    0.0, on every pair of volumes and every generator. *)
Theorem random_value_clamped (original expanded : ndarray Z)
  (random_value : float) (g : RandomState) :
  (PrimFloat.ltb random_value 1 = false ->
   generate_random_mask original expanded random_value g
   = generate_random_mask original expanded 1 g) /\
  (PrimFloat.leb random_value 0 = true ->
   generate_random_mask original expanded random_value g
   = generate_random_mask original expanded 0 g).
Proof.
  split; intros H; unfold generate_random_mask;
    fold (clamp random_value); fold (clamp 1); fold (clamp 0).
  - rewrite (clamp_not_below_one _ H), clamp_one. reflexivity.
  - rewrite (clamp_at_most_zero _ H), clamp_zero. reflexivity.
Qed.

Lemma random_value_clamped_witness :
  generate_random_mask centre_tibia centre_tibia_2mm nan half_draws
  = generate_random_mask centre_tibia centre_tibia_2mm 1 half_draws /\
  generate_random_mask centre_tibia centre_tibia_2mm 7.5 half_draws
  = generate_random_mask centre_tibia centre_tibia_2mm 1 half_draws /\
  generate_random_mask centre_tibia centre_tibia_2mm (-3) half_draws
  = generate_random_mask centre_tibia centre_tibia_2mm 0 half_draws.
Proof.
  split; [| split].
  - apply (proj1 (random_value_clamped centre_tibia centre_tibia_2mm nan half_draws)).
    reflexivity.
  - apply (proj1 (random_value_clamped centre_tibia centre_tibia_2mm 7.5 half_draws)).
    reflexivity.
  - apply (proj2 (random_value_clamped centre_tibia centre_tibia_2mm (-3) half_draws)).
    reflexivity.
Defined.

Lemma randomize_label_cursor (o e : ndarray Z) (rv : float) (res : ndarray Z)
  (g : RandomState) (label : Z) :
  cursor (snd (randomize_label o e rv (res, g) label))
  = (cursor g + ring_size o e label)%nat.
Proof.
  unfold randomize_label, ring_size, ring.
  destruct (0 <? _)%nat eqn:E.
  - reflexivity.
  - apply Nat.ltb_ge in E. apply Nat.le_0_r in E. rewrite E. simpl. lia.
Qed.

(** X9: on two volumes of one shape the randomizer returns, and it draws
    one random number per voxel of the two expansion rings, the ring of
    label 1 first, and nothing else: the output has the shape of the
    original, the stream of the generator is untouched, and the generator
    has advanced by the number of ring voxels of label 1 plus that of
    label 2. *)
Theorem randomizer_draws (original expanded : ndarray Z) (random_value : float)
  (g : RandomState) :
  shape original = shape expanded ->
  exists out g',
    generate_random_mask original expanded random_value g = Ok (out, g') /\
    shape out = shape original /\
    stream g' = stream g /\
    cursor g' = (cursor g + ring_size original expanded 1
                          + ring_size original expanded 2)%nat.
Proof.
  intros Hs. unfold generate_random_mask.
  replace (shape_eqb (shape original) (shape expanded)) with true
    by (symmetry; apply index_eqb_eq; exact Hs).
  fold (clamp random_value). unfold fold_left.
  destruct (randomize_label original expanded (clamp random_value)
              (zeros_like original, g) 1) as [res1 g1] eqn:E1.
  destruct (randomize_label original expanded (clamp random_value) (res1, g1) 2)
    as [out g'] eqn:E2.
  exists out, g'. split; [reflexivity |].
  assert (Hout : out = fst (randomize_label original expanded (clamp random_value)
                              (res1, g1) 2)) by (rewrite E2; reflexivity).
  assert (Hg : g' = snd (randomize_label original expanded (clamp random_value)
                           (res1, g1) 2)) by (rewrite E2; reflexivity).
  assert (R1 : res1 = fst (randomize_label original expanded (clamp random_value)
                             (zeros_like original, g) 1)) by (rewrite E1; reflexivity).
  assert (G1 : g1 = snd (randomize_label original expanded (clamp random_value)
                           (zeros_like original, g) 1)) by (rewrite E1; reflexivity).
  clear E1 E2. subst out g'.
  split; [| split].
  - rewrite randomize_label_shape, R1, randomize_label_shape. reflexivity.
  - rewrite randomize_label_stream, G1, randomize_label_stream. reflexivity.
  - rewrite randomize_label_cursor, G1, randomize_label_cursor. reflexivity.
Qed.

Lemma randomizer_draws_witness :
  exists out g',
    generate_random_mask centre_tibia centre_tibia_2mm 0.65 half_draws
      = Ok (out, g') /\
    shape out = shape centre_tibia /\
    stream g' = stream half_draws /\
    cursor g' = (cursor half_draws + ring_size centre_tibia centre_tibia_2mm 1
                                   + ring_size centre_tibia centre_tibia_2mm 2)%nat.
Proof.
  apply (randomizer_draws centre_tibia centre_tibia_2mm 0.65 half_draws).
  reflexivity.
Defined.

Lemma ring_same_empty (o : ndarray Z) (label : Z) : ring_size o o label = O.
Proof.
  unfold ring_size, np_where.
  replace (filter (data (ring o o label)) (ndindex (shape (ring o o label))))
    with (@nil index); [reflexivity |].
  symmetry. apply filter_nil_iff. intros p _. unfold ring. simpl.
  apply andb_negb_r.
Qed.

Lemma randomize_label_no_ring (o e : ndarray Z) (rv : float) (res : ndarray Z)
  (g : RandomState) (label : Z) :
  ring_size o e label = O ->
  randomize_label o e rv (res, g) label
  = (assign_where res (eq_scalar o label) label, g).
Proof.
  unfold randomize_label, ring_size, ring. intros H. rewrite H. reflexivity.
Qed.

(** X10: with nothing to randomize the randomizer changes nothing: called
    with the original label volume as the expanded one, it returns this
    volume and leaves the generator as it was, for every random value. *)
Theorem randomizer_without_ring (original : ndarray Z) (random_value : float)
  (g : RandomState) :
  label_volume original ->
  exists out,
    generate_random_mask original original random_value g = Ok (out, g) /\
    array_equal out original.
Proof.
  intros Hl. unfold generate_random_mask.
  replace (shape_eqb (shape original) (shape original)) with true
    by (symmetry; apply index_eqb_refl).
  unfold fold_left.
  rewrite (randomize_label_no_ring original original _ _ g 1)
    by apply ring_same_empty.
  rewrite (randomize_label_no_ring original original _ _ g 2)
    by apply ring_same_empty.
  eexists. split; [reflexivity |]. split; [reflexivity |].
  intros p Hb. simpl in Hb. simpl.
  destruct (Hl p Hb) as [Z0 | [Z1 | Z2]]; rewrite ?Z0, ?Z1, ?Z2; reflexivity.
Qed.

Lemma randomizer_without_ring_witness :
  exists out,
    generate_random_mask centre_tibia centre_tibia 0.65 half_draws
      = Ok (out, half_draws) /\
    array_equal out centre_tibia.
Proof.
  apply (randomizer_without_ring centre_tibia 0.65 half_draws).
  solve_label_volume.
Defined.

(** ** The order of binary64 numbers *)

Lemma SFcompare_lt_le_trans (a b c : spec_float) :
  SFcompare a b = Some Lt ->
  SFcompare b c = Some Lt \/ SFcompare b c = Some Eq ->
  SFcompare a c = Some Lt.
Proof.
  destruct a as [[|]|[|]| |[|] m1 e1], b as [[|]|[|]| |[|] m2 e2],
           c as [[|]|[|]| |[|] m3 e3];
    simpl; intros H1 [H2 | H2]; try discriminate; try reflexivity;
    revert H1 H2;
    change (Pos.compare_cont Eq) with Pos.compare;
    repeat match goal with
           | |- context [Z.compare ?x ?y] => destruct (Z.compare_spec x y)
           | |- context [Pos.compare ?x ?y] => destruct (Pos.compare_spec x y)
           end;
    simpl; intros; try reflexivity; try discriminate; try lia.
Qed.

Lemma SFcompare_refl (a : spec_float) :
  a <> S754_nan -> SFcompare a a = Some Eq.
Proof.
  destruct a as [[|]|[|]| |[|] m e]; simpl; intros H; try reflexivity;
    try congruence;
    rewrite Z.compare_refl;
    change (Pos.compare_cont Eq m m) with (Pos.compare m m);
    rewrite Pos.compare_refl; reflexivity.
Qed.

Lemma ltb_leb (a b : float) : PrimFloat.ltb a b = true -> PrimFloat.leb a b = true.
Proof.
  rewrite ltb_spec, leb_spec. unfold SFltb, SFleb.
  destruct (SFcompare (Prim2SF a) (Prim2SF b)) as [[| |]|]; congruence.
Qed.

Lemma ltb_leb_trans (a b c : float) :
  PrimFloat.ltb a b = true -> PrimFloat.leb b c = true -> PrimFloat.ltb a c = true.
Proof.
  rewrite !ltb_spec, leb_spec. unfold SFltb, SFleb. intros H1 H2.
  rewrite (SFcompare_lt_le_trans (Prim2SF a) (Prim2SF b) (Prim2SF c)).
  - reflexivity.
  - destruct (SFcompare (Prim2SF a) (Prim2SF b)) as [[| |]|]; congruence.
  - destruct (SFcompare (Prim2SF b) (Prim2SF c)) as [[| |]|]; auto; discriminate.
Qed.

Lemma leb_refl (a : float) : Float64.is_nan a = false -> PrimFloat.leb a a = true.
Proof.
  intros H. apply is_nan_false in H. rewrite leb_spec. unfold SFleb.
  rewrite (SFcompare_refl _ H). reflexivity.
Qed.

Lemma not_leb_ltb (a b : float) :
  Float64.is_nan a = false -> Float64.is_nan b = false ->
  PrimFloat.leb a b = false -> PrimFloat.ltb b a = true.
Proof.
  intros Ha Hb. apply is_nan_false in Ha. apply is_nan_false in Hb.
  rewrite ltb_spec, leb_spec. unfold SFltb, SFleb.
  rewrite (SFcompare_antisym (Prim2SF a) (Prim2SF b)).
  destruct (SFcompare (Prim2SF a) (Prim2SF b)) as [[| |]|] eqn:E; simpl;
    try reflexivity; try discriminate.
  intros _. exfalso.
  destruct (Prim2SF a) as [[|]|[|]| |[|] m1 e1], (Prim2SF b) as [[|]|[|]| |[|] m2 e2];
    simpl in E; try discriminate; congruence.
Qed.

(** A number is below another or the other is at or below it, never both. *)
Lemma ltb_excludes_leb (a b : float) :
  PrimFloat.ltb a b = true -> PrimFloat.leb b a = false.
Proof.
  rewrite ltb_spec, leb_spec. unfold SFltb, SFleb.
  rewrite (SFcompare_antisym (Prim2SF a) (Prim2SF b)).
  destruct (SFcompare (Prim2SF a) (Prim2SF b)) as [[| |]|]; simpl; congruence.
Qed.

(** ** The lowest point of a side *)

Lemma argmin_float_from_spec (l : list float) :
  forall (best : float) (besti i : nat),
  Float64.is_nan best = false ->
  Forall (fun x => Float64.is_nan x = false) l ->
  (argmin_float_from best besti i l = besti /\
   Forall (fun x => PrimFloat.leb best x = true) l) \/
  (exists k, argmin_float_from best besti i l = (i + k)%nat /\
             (k < length l)%nat /\
             PrimFloat.ltb (nth k l 0%float) best = true /\
             Forall (fun x => PrimFloat.leb (nth k l 0%float) x = true) l /\
             forall k', (k' < k)%nat ->
                        PrimFloat.ltb (nth k l 0%float) (nth k' l 0%float) = true).
Proof.
  induction l as [|x l IH]; intros best besti i Hb Hl.
  - left. split; [reflexivity | constructor].
  - inversion Hl as [|x' l' Hx Hl']; subst. simpl argmin_float_from. rewrite Hb.
    destruct (PrimFloat.leb best x) eqn:E; simpl negb.
    + destruct (IH best besti (S i) Hb Hl')
        as [[R F] | (k & R & Hk & Hlt & F & First)].
      * left. split; [exact R | constructor; [exact E | exact F]].
      * right. exists (S k). rewrite R. simpl.
        pose proof (ltb_leb_trans _ _ _ Hlt E) as Hkx.
        split; [lia |]. split; [lia |]. split; [exact Hlt |]. split.
        -- constructor; [apply ltb_leb; exact Hkx | exact F].
        -- intros [|k'] Hk'; [exact Hkx | apply First; lia].
    + pose proof (not_leb_ltb _ _ Hb Hx E) as Hxb.
      destruct (IH x i (S i) Hx Hl')
        as [[R F] | (k & R & Hk & Hlt & F & First)].
      * right. exists O. rewrite R. simpl.
        split; [lia |]. split; [lia |]. split; [exact Hxb |]. split.
        -- constructor; [apply leb_refl; exact Hx | exact F].
        -- intros k' Hk'. lia.
      * right. exists (S k). rewrite R. simpl.
        split; [lia |]. split; [lia |].
        split; [apply (ltb_leb_trans _ x); [exact Hlt | apply ltb_leb; exact Hxb] |].
        split.
        -- constructor; [apply ltb_leb; exact Hlt | exact F].
        -- intros [|k'] Hk'; [exact Hlt | apply First; lia].
Qed.

(** [np.argmin] on numbers returns the first position of the least one. *)
Lemma argmin_float_spec (l : list float) :
  l <> [] -> Forall (fun x => Float64.is_nan x = false) l ->
  (argmin_float l < length l)%nat /\
  Forall (fun x => PrimFloat.leb (nth (argmin_float l) l 0%float) x = true) l /\
  forall k', (k' < argmin_float l)%nat ->
    PrimFloat.ltb (nth (argmin_float l) l 0%float) (nth k' l 0%float) = true.
Proof.
  destruct l as [|x l]; [congruence |]. intros _ Hl.
  inversion Hl as [|x' l' Hx Hl']; subst. unfold argmin_float.
  destruct (argmin_float_from_spec l x O 1%nat Hx Hl')
    as [[R F] | (k & R & Hk & Hlt & F & First)]; rewrite R.
  - simpl. split; [lia |]. split.
    + constructor; [apply leb_refl; exact Hx | exact F].
    + intros k' Hk'. lia.
  - simpl. split; [lia |]. split.
    + constructor; [apply ltb_leb; exact Hlt | exact F].
    + intros [|k'] Hk'; [exact Hlt | apply First; lia].
Qed.

(** The row that [lowest] returns is a row of the list with a Z coordinate
    at or below that of every row. *)
Lemma lowest_spec (points : list point_mm) (pt : point_mm) :
  Forall (fun q => Float64.is_nan (pz q) = false) points ->
  lowest points = Some pt ->
  In pt points /\ forall q, In q points -> PrimFloat.leb (pz pt) (pz q) = true.
Proof.
  intros Hn H. destruct points as [|p0 ps] eqn:Ep; [discriminate H |].
  rewrite <- Ep in *. unfold lowest in H. rewrite Ep in H. rewrite <- Ep in H.
  inversion H as [Hpt]; clear H.
  assert (Hne : map pz points <> []) by (rewrite Ep; discriminate).
  assert (Hnn : Forall (fun x => Float64.is_nan x = false) (map pz points)).
  { apply Forall_forall. intros x Hx. apply in_map_iff in Hx.
    destruct Hx as [q [<- Hq]]. rewrite Forall_forall in Hn. apply Hn. exact Hq. }
  destruct (argmin_float_spec (map pz points) Hne Hnn) as (Hk & Hmin & _).
  rewrite length_map in Hk. split; [apply nth_In; exact Hk |].
  intros q Hq. rewrite Forall_forall in Hmin.
  specialize (Hmin (pz q) (in_map pz _ _ Hq)).
  rewrite (nth_indep _ 0%float (pz p0)) in Hmin by (rewrite length_map; exact Hk).
  rewrite map_nth in Hmin. exact Hmin.
Qed.

Lemma In_tibia_points_inv (seg : ndarray Z) (voxel_sizes : voxel_spacing)
  (pt : point_mm) :
  In pt (tibia_points seg voxel_sizes) ->
  exists p, in_bounds (shape seg) p = true /\ data seg p = 1 /\
            pt = to_mm voxel_sizes p.
Proof.
  unfold tibia_points, np_where. intros H. apply in_map_iff in H.
  destruct H as [p [<- Hp]]. apply filter_In in Hp. destruct Hp as [Hb Hl].
  exists p. split; [apply In_ndindex; exact Hb |].
  split; [simpl in Hl; apply Z.eqb_eq; exact Hl | reflexivity].
Qed.

(** The two results in mm, when the volume has a tibia voxel. *)
Lemma find_tibia_lowest_points_sides (seg : ndarray Z)
  (voxel_sizes : voxel_spacing) (medial lateral : option point_mm)
  (medial_voxel lateral_voxel : option index) :
  find_tibia_lowest_points seg voxel_sizes
    = Ok (medial, lateral, medial_voxel, lateral_voxel) ->
  (medial = None /\ lateral = None /\
   forall p, in_bounds (shape seg) p = true -> data seg p <> 1) \/
  (medial = lowest (medial_points seg voxel_sizes) /\
   lateral = lowest (lateral_points seg voxel_sizes)).
Proof.
  unfold find_tibia_lowest_points. intros H.
  destruct (count_nonzero (eq_scalar seg 1) =? 0) eqn:E.
  - left. inversion H. split; [reflexivity |]. split; [reflexivity |].
    apply Z.eqb_eq in E. rewrite count_nonzero_zero in E.
    intros p Hb. specialize (E p Hb). simpl in E. apply Z.eqb_neq. exact E.
  - right. apply bind_Ok_inv in H. destruct H as [lv [_ H]].
    apply bind_Ok_inv in H. destruct H as [mv [_ H]].
    inversion H. split; reflexivity.
Qed.

(** X11: the landmarks are lowest points.  When the finder returns and no
    tibia point has a NaN as Z coordinate, a medial result is the position
    in mm of a tibia voxel of the volume, has its X coordinate at or above
    the computed mean X, and its Z coordinate is at or below that of every
    tibia point at or above the mean; the lateral result likewise among the
    tibia points below the mean. *)
Theorem landmarks_are_lowest (seg : ndarray Z) (voxel_sizes : voxel_spacing)
  (medial lateral : option point_mm) (medial_voxel lateral_voxel : option index) :
  find_tibia_lowest_points seg voxel_sizes
    = Ok (medial, lateral, medial_voxel, lateral_voxel) ->
  (forall q, In q (tibia_points seg voxel_sizes) ->
             Float64.is_nan (pz q) = false) ->
  (forall pt, medial = Some pt ->
     (exists p, in_bounds (shape seg) p = true /\ data seg p = 1 /\
                pt = to_mm voxel_sizes p) /\
     PrimFloat.leb (center_x seg voxel_sizes) (px pt) = true /\
     forall q, In q (tibia_points seg voxel_sizes) ->
               PrimFloat.leb (center_x seg voxel_sizes) (px q) = true ->
               PrimFloat.leb (pz pt) (pz q) = true) /\
  (forall pt, lateral = Some pt ->
     (exists p, in_bounds (shape seg) p = true /\ data seg p = 1 /\
                pt = to_mm voxel_sizes p) /\
     PrimFloat.ltb (px pt) (center_x seg voxel_sizes) = true /\
     forall q, In q (tibia_points seg voxel_sizes) ->
               PrimFloat.ltb (px q) (center_x seg voxel_sizes) = true ->
               PrimFloat.leb (pz pt) (pz q) = true).
Proof.
  intros H Hn.
  destruct (find_tibia_lowest_points_sides _ _ _ _ _ _ H)
    as [(-> & -> & _) | [-> ->]].
  - split; intros pt Hpt; discriminate Hpt.
  - split; intros pt Hpt.
    + apply lowest_spec in Hpt.
      * destruct Hpt as [Hin Hmin]. unfold medial_points in Hin.
        apply filter_In in Hin. destruct Hin as [Hin Hside].
        split; [apply (In_tibia_points_inv _ _ _ Hin) |]. split; [exact Hside |].
        intros q Hq Hqs. apply Hmin. unfold medial_points.
        apply filter_In. split; assumption.
      * apply Forall_forall. intros q Hq. unfold medial_points in Hq.
        apply filter_In in Hq. apply Hn. apply Hq.
    + apply lowest_spec in Hpt.
      * destruct Hpt as [Hin Hmin]. unfold lateral_points in Hin.
        apply filter_In in Hin. destruct Hin as [Hin Hside].
        split; [apply (In_tibia_points_inv _ _ _ Hin) |]. split; [exact Hside |].
        intros q Hq Hqs. apply Hmin. unfold lateral_points.
        apply filter_In. split; assumption.
      * apply Forall_forall. intros q Hq. unfold lateral_points in Hq.
        apply filter_In in Hq. apply Hn. apply Hq.
Qed.

Lemma landmarks_are_lowest_witness :
  let seg := volume_of (3, 1, 3)
               [((0, 0, 2), 1); ((0, 0, 1), 1); ((2, 0, 0), 1); ((2, 0, 2), 1)] in
  let vs := (0.8, 0.8, 1)%float in
  find_tibia_lowest_points seg vs
    = Ok (Some (to_mm vs (2, 0, 0)), Some (to_mm vs (0, 0, 1)),
          Some (2, 0, 0), Some (0, 0, 1)) /\
  (forall q, In q (tibia_points seg vs) ->
             PrimFloat.leb (center_x seg vs) (px q) = true ->
             PrimFloat.leb (pz (to_mm vs (2, 0, 0))) (pz q) = true) /\
  (forall q, In q (tibia_points seg vs) ->
             PrimFloat.ltb (px q) (center_x seg vs) = true ->
             PrimFloat.leb (pz (to_mm vs (0, 0, 1))) (pz q) = true).
Proof.
  intros seg vs.
  assert (E : find_tibia_lowest_points seg vs
              = Ok (Some (to_mm vs (2, 0, 0)), Some (to_mm vs (0, 0, 1)),
                    Some (2, 0, 0), Some (0, 0, 1)))
    by (vm_compute; reflexivity).
  split; [exact E |].
  destruct (landmarks_are_lowest seg vs _ _ _ _ E) as [Hm Hl].
  - intros q Hq. vm_compute in Hq.
    destruct Hq as [<- | [<- | [<- | [<- | []]]]]; reflexivity.
  - split.
    + apply (Hm _ eq_refl).
    + apply (Hl _ eq_refl).
Defined.

Lemma filter_complement_length {A : Type} (f g : A -> bool) (l : list A) :
  (forall x, In x l -> f x = negb (g x)) ->
  (length (filter f l) + length (filter g l) = length l)%nat.
Proof.
  induction l as [|a l IH]; intros H; [reflexivity |].
  simpl. rewrite (H a (or_introl eq_refl)).
  specialize (IH (fun x Hx => H x (or_intror Hx))).
  destruct (g a); simpl; lia.
Qed.

(** X12: the two sides of the mean take every tibia voxel once.  When the
    finder returns on a volume with a tibia voxel, its results are the
    lowest points of the lateral and of the medial side; and when the
    computed mean and the X coordinates are numbers (not NaN), the sizes of
    the two sides add up to the number of tibia voxels and no tibia point is
    on both sides. *)
Theorem sides_partition (seg : ndarray Z) (voxel_sizes : voxel_spacing)
  (medial lateral : option point_mm) (medial_voxel lateral_voxel : option index) :
  (exists p, in_bounds (shape seg) p = true /\ data seg p = 1) ->
  find_tibia_lowest_points seg voxel_sizes
    = Ok (medial, lateral, medial_voxel, lateral_voxel) ->
  medial = lowest (medial_points seg voxel_sizes) /\
  lateral = lowest (lateral_points seg voxel_sizes) /\
  (Float64.is_nan (center_x seg voxel_sizes) = false ->
   (forall q, In q (tibia_points seg voxel_sizes) ->
              Float64.is_nan (px q) = false) ->
   Z.of_nat (length (lateral_points seg voxel_sizes))
     + Z.of_nat (length (medial_points seg voxel_sizes))
   = count_nonzero (eq_scalar seg 1) /\
   forall q, ~ (In q (lateral_points seg voxel_sizes) /\
                In q (medial_points seg voxel_sizes))).
Proof.
  intros [p [Hb Hp]] H.
  destruct (find_tibia_lowest_points_sides _ _ _ _ _ _ H)
    as [(_ & _ & Hnone) | [Hm Hl]]; [exfalso; exact (Hnone p Hb Hp) |].
  split; [exact Hm |]. split; [exact Hl |]. intros Hc Hx.
  assert (Hside : forall q, In q (tibia_points seg voxel_sizes) ->
            PrimFloat.ltb (px q) (center_x seg voxel_sizes)
            = negb (PrimFloat.leb (center_x seg voxel_sizes) (px q))).
  { intros q Hq.
    destruct (PrimFloat.ltb (px q) (center_x seg voxel_sizes)) eqn:L.
    - rewrite (ltb_excludes_leb _ _ L). reflexivity.
    - rewrite (not_below_at_or_above _ _ (Hx q Hq) Hc L). reflexivity. }
  split.
  - unfold lateral_points, medial_points.
    pose proof (filter_complement_length _ _ _ Hside) as Hlen.
    unfold count_nonzero. unfold tibia_points in Hlen at 3.
    rewrite length_map in Hlen. lia.
  - intros q [H1 H2]. unfold lateral_points in H1. unfold medial_points in H2.
    apply filter_In in H1. apply filter_In in H2.
    destruct H1 as [Hq L]. destruct H2 as [_ M].
    rewrite (Hside q Hq), M in L. discriminate L.
Qed.

Lemma sides_partition_witness :
  let seg := volume_of (3, 1, 3)
               [((0, 0, 2), 1); ((0, 0, 1), 1); ((2, 0, 0), 1); ((2, 0, 2), 1)] in
  let vs := (0.8, 0.8, 1)%float in
  Z.of_nat (length (lateral_points seg vs)) + Z.of_nat (length (medial_points seg vs))
  = count_nonzero (eq_scalar seg 1) /\
  forall q, ~ (In q (lateral_points seg vs) /\ In q (medial_points seg vs)).
Proof.
  intros seg vs.
  destruct (sides_partition seg vs
              (Some (to_mm vs (2, 0, 0))) (Some (to_mm vs (0, 0, 1)))
              (Some (2, 0, 0)) (Some (0, 0, 1))) as (_ & _ & H).
  - exists (2, 0, 0). split; reflexivity.
  - vm_compute. reflexivity.
  - apply H.
    + reflexivity.
    + intros q Hq. vm_compute in Hq.
      destruct Hq as [<- | [<- | [<- | [<- | []]]]]; reflexivity.
Defined.

(** ** The samples of the 3-D plot *)

Lemma stride_from_length {A : Type} (k : nat) (l : list A) : forall c : nat,
  (c < k)%nat ->
  length (Visualization.stride_from k c l) = ((length l + (k - 1 - c)) / k)%nat.
Proof.
  induction l as [|x l IH]; intros c Hc.
  - simpl. symmetry. apply Nat.div_small. lia.
  - destruct c as [|c]; simpl.
    + rewrite IH by lia.
      replace (k - 1 - (k - 1))%nat with O by lia.
      replace (S (length l + (k - 1 - 0)))%nat with (length l + 0 + 1 * k)%nat by lia.
      rewrite Nat.div_add by lia. lia.
    + rewrite IH by lia. f_equal. lia.
Qed.

(** The entry [j] of [l[::k]] is the entry [j * k] of [l]. *)
Lemma stride_from_nth {A : Type} (k : nat) (d : A) (l : list A) :
  forall c j : nat, (c < k)%nat ->
    nth j (Visualization.stride_from k c l) d = nth (c + j * k) l d.
Proof.
  induction l as [|x l IH]; intros c j Hc.
  - simpl. destruct j, (c + _)%nat; reflexivity.
  - destruct c as [|c]; simpl.
    + destruct j as [|j]; [reflexivity |].
      rewrite IH by lia.
      replace (S j * k)%nat with (S (k - 1 + j * k)) by lia. reflexivity.
    + apply IH. lia.
Qed.

Lemma stride_from_In {A : Type} (k : nat) (x : A) (l : list A) : forall c : nat,
  In x (Visualization.stride_from k c l) -> In x l.
Proof.
  induction l as [|y l IH]; intros c H; [exact H |].
  destruct c as [|c]; simpl in H.
  - destruct H as [H | H]; [left; exact H | right; exact (IH _ H)].
  - right. exact (IH _ H).
Qed.

Lemma stride_one {A : Type} (l : list A) : Visualization.stride 1 l = l.
Proof.
  unfold Visualization.stride. induction l as [|x l IH]; [reflexivity |].
  simpl. f_equal. exact IH.
Qed.

(** Lines 234 to 239: the samples are tibia voxels of the volume, the sample
    [j] being the tibia voxel [j * sample_rate] in C order. *)
Lemma tibia_samples_stride (seg : ndarray Z) :
  let tibia_coords := np_where (eq_scalar seg 1) in
  let sample_rate := Z.max 1 (len tibia_coords / 500) in
  let samples := Visualization.tibia_samples seg in
  (forall p, In p samples -> in_bounds (shape seg) p = true /\ data seg p = 1) /\
  (forall j : nat,
     nth j samples (0, 0, 0)
     = nth (j * Z.to_nat sample_rate) tibia_coords (0, 0, 0)) /\
  len samples = (len tibia_coords + sample_rate - 1) / sample_rate /\
  (len tibia_coords < 1000 -> samples = tibia_coords) /\
  (500 <= len tibia_coords -> 500 <= len samples <= 999).
Proof.
  intros tibia_coords sample_rate samples.
  assert (Hr : 1 <= sample_rate) by (unfold sample_rate; lia).
  assert (Hlen : len samples = (len tibia_coords + sample_rate - 1) / sample_rate).
  { unfold samples, Visualization.tibia_samples, Visualization.stride, len.
    fold tibia_coords. fold (len tibia_coords). fold sample_rate.
    rewrite stride_from_length by lia.
    rewrite Nat2Z.inj_div, Nat2Z.inj_add, !Nat2Z.inj_sub by lia.
    rewrite Z2Nat.id by lia. unfold len. f_equal. simpl. lia. }
  split; [| split; [| split; [exact Hlen | split]]].
  - intros p Hp. unfold samples, Visualization.tibia_samples, Visualization.stride in Hp.
    apply stride_from_In in Hp. unfold np_where in Hp.
    apply filter_In in Hp. destruct Hp as [Hin Hd].
    apply In_ndindex in Hin. simpl in Hin, Hd. apply Z.eqb_eq in Hd.
    split; assumption.
  - intros j. unfold samples, Visualization.tibia_samples, Visualization.stride.
    fold tibia_coords. fold (len tibia_coords). fold sample_rate.
    rewrite stride_from_nth by lia. reflexivity.
  - intros Hn. unfold samples, Visualization.tibia_samples.
    fold tibia_coords. fold (len tibia_coords).
    assert (E : len tibia_coords / 500 <= 1).
    { apply Z.lt_succ_r. apply Z.div_lt_upper_bound; lia. }
    replace (Z.max 1 (len tibia_coords / 500)) with 1 by lia.
    apply stride_one.
  - intros Hn. rewrite Hlen.
    assert (Hq : 500 * (len tibia_coords / 500) <= len tibia_coords
                 < 500 * (len tibia_coords / 500) + 500).
    { pose proof (Z.div_mod (len tibia_coords) 500 ltac:(lia)).
      pose proof (Z.mod_pos_bound (len tibia_coords) 500 ltac:(lia)). lia. }
    assert (Hq1 : 1 <= len tibia_coords / 500).
    { apply Z.div_le_lower_bound; lia. }
    assert (Es : sample_rate = len tibia_coords / 500) by (unfold sample_rate; lia).
    split.
    + apply Z.div_le_lower_bound; [lia |]. nia.
    + apply Z.lt_succ_r. apply Z.div_lt_upper_bound; [lia |]. nia.
Qed.

Lemma norm_index_accepts (n i : Z) :
  - n <= i < n -> exists j, norm_index n i = Ok j.
Proof.
  intros H. destruct (norm_index_cases n i) as [[_ E] | [N _]];
    [exact E | contradiction].
Qed.

Lemma norm_index_refuses (n i : Z) :
  ~ (- n <= i < n) -> norm_index n i = Raise IndexError.
Proof.
  intros H. destruct (norm_index_cases n i) as [[N _] | [_ E]];
    [contradiction | exact E].
Qed.

(** X13: what [visualize_tibia_points] draws.  With a landmark missing it
    returns at once and draws nothing.  With both landmarks, the figure is
    drawn when the three slice indices (the X and the Z of the medial
    landmark, the mean Y of the two landmarks) are indices that Python
    accepts on their axes, and the plot is skipped when one of them is not.
    When the figure is drawn, the voxels of the 3-D plot are tibia voxels of
    the segmentation, the sample [j] being the tibia voxel [j * sample_rate]
    in C order; their number is the number of tibia voxels divided by the
    rate, rounded up; below 1000 tibia voxels the rate is 1 and every tibia
    voxel is drawn; from 500 tibia voxels on, between 500 and 999 voxels are
    drawn. *)
Theorem tibia_samples_spec {A : Type} (volume : ndarray A) (seg : ndarray Z)
  (tibia_medial_voxel tibia_lateral_voxel : option index) :
  let plot :=
    Visualization.visualize_tibia_points volume seg
      tibia_medial_voxel tibia_lateral_voxel in
  (tibia_medial_voxel = None \/ tibia_lateral_voxel = None <->
   plot = Visualization.Missing) /\
  (forall tm_x tm_y tm_z tl_x tl_y tl_z,
     tibia_medial_voxel = Some (tm_x, tm_y, tm_z) ->
     tibia_lateral_voxel = Some (tl_x, tl_y, tl_z) ->
     let '(nx, ny, nz) := shape volume in
     let avg_y := (tm_y + tl_y) / 2 in
     (- nx <= tm_x < nx /\ - ny <= avg_y < ny /\ - nz <= tm_z < nz ->
      exists sagittal coronal axial,
        plot = Visualization.Drawn sagittal coronal axial
                 (tm_x, tm_y, tm_z) (tl_x, tl_y, tl_z) avg_y
                 (Visualization.tibia_samples seg)) /\
     (~ (- nx <= tm_x < nx /\ - ny <= avg_y < ny /\ - nz <= tm_z < nz) ->
      plot = Visualization.Skipped)) /\
  (forall sagittal coronal axial tm tl avg_y samples,
     plot = Visualization.Drawn sagittal coronal axial tm tl avg_y samples ->
     let tibia_coords := np_where (eq_scalar seg 1) in
     let sample_rate := Z.max 1 (len tibia_coords / 500) in
     tibia_medial_voxel = Some tm /\ tibia_lateral_voxel = Some tl /\
     (forall p, In p samples -> in_bounds (shape seg) p = true /\ data seg p = 1) /\
     (forall j : nat,
        nth j samples (0, 0, 0)
        = nth (j * Z.to_nat sample_rate) tibia_coords (0, 0, 0)) /\
     len samples = (len tibia_coords + sample_rate - 1) / sample_rate /\
     (len tibia_coords < 1000 -> samples = tibia_coords) /\
     (500 <= len tibia_coords -> 500 <= len samples <= 999)).
Proof.
  intros plot. split; [| split].
  - unfold plot, Visualization.visualize_tibia_points. split.
    + intros [-> | ->]; [reflexivity |].
      destruct tibia_medial_voxel; reflexivity.
    + destruct tibia_medial_voxel as [[[tm_x tm_y] tm_z] |]; [| auto].
      destruct tibia_lateral_voxel as [[[tl_x tl_y] tl_z] |]; [| auto].
      destruct (sagittal <- slice_x volume tm_x ;; _) as [[[sg co] ax] | e];
        discriminate.
  - intros tm_x tm_y tm_z tl_x tl_y tl_z -> ->.
    unfold plot, Visualization.visualize_tibia_points, slice_x, slice_y, slice_z.
    destruct (shape volume) as [[nx ny] nz]. cbv zeta. split.
    + intros (Hx & Hy & Hz).
      destruct (norm_index_accepts _ _ Hx) as [jx Ex].
      destruct (norm_index_accepts _ _ Hy) as [jy Ey].
      destruct (norm_index_accepts _ _ Hz) as [jz Ez].
      rewrite Ex, Ey, Ez. cbn [bind]. eauto.
    + intros Hn.
      destruct (norm_index_cases nx tm_x) as [[Hx [jx Ex]] | [_ Ex]];
        rewrite Ex; cbn [bind]; [| reflexivity].
      destruct (norm_index_cases ny ((tm_y + tl_y) / 2)) as [[Hy [jy Ey]] | [_ Ey]];
        rewrite Ey; cbn [bind]; [| reflexivity].
      destruct (norm_index_cases nz tm_z) as [[Hz [jz Ez]] | [_ Ez]];
        rewrite Ez; cbn [bind]; [| reflexivity].
      exfalso. apply Hn. repeat split; lia.
  - intros sagittal coronal axial tm tl avg_y samples H tibia_coords sample_rate.
    unfold plot, Visualization.visualize_tibia_points in H.
    destruct tibia_medial_voxel as [[[tm_x tm_y] tm_z] |]; [| discriminate H].
    destruct tibia_lateral_voxel as [[[tl_x tl_y] tl_z] |]; [| discriminate H].
    destruct (sg <- slice_x volume tm_x ;; _) as [[[sg co] ax] | e];
      [| discriminate H].
    injection H as _ _ _ <- <- _ <-.
    split; [reflexivity |]. split; [reflexivity |].
    exact (tibia_samples_stride seg).
Qed.

(** ** The middle coronal slice *)

(** X14: the slice that [display_coronal_slice] shows.  On a volume with at
    least one coronal slice it is the slice [ny // 2], transposed: its rows
    run along Z and its columns along X.  On a volume with no coronal slice
    the indexing raises [IndexError]. *)
Theorem mid_coronal_slice_outcome {A : Type} (volume : ndarray A) (nx ny nz : Z) :
  shape volume = (nx, ny, nz) -> 0 <= ny ->
  (0 < ny ->
   exists s, Visualization.mid_coronal_slice volume = Ok s /\
             shape2 s = (nz, nx) /\
             0 <= ny / 2 < ny /\
             forall r c, data2 s (r, c) = data volume (c, ny / 2, r)) /\
  (ny = 0 -> Visualization.mid_coronal_slice volume = Raise IndexError).
Proof.
  intros Hs Hny. unfold Visualization.mid_coronal_slice, slice_y.
  rewrite Hs. cbn [fst snd]. split.
  - intros Hpos.
    assert (Hh : 0 <= ny / 2 < ny).
    { split; [apply Z.div_pos; lia | apply Z.div_lt_upper_bound; lia]. }
    unfold norm_index.
    replace (in_range ny (ny / 2)) with true
      by (symmetry; apply in_range_spec; exact Hh).
    simpl. eexists. split; [reflexivity |].
    split; [reflexivity |]. split; [exact Hh |]. intros r c. reflexivity.
  - intros ->. reflexivity.
Qed.

Lemma mid_coronal_slice_outcome_witness :
  (0 < 5 ->
   exists s, Visualization.mid_coronal_slice (five_slices 300) = Ok s /\
             shape2 s = (1, 1) /\
             0 <= 5 / 2 < 5 /\
             forall r c, data2 s (r, c) = data (five_slices 300) (c, 5 / 2, r)) /\
  (5 = 0 -> Visualization.mid_coronal_slice (five_slices 300) = Raise IndexError).
Proof.
  apply (mid_coronal_slice_outcome (five_slices 300) 1 5 1); [reflexivity | lia].
Defined.

(** ** The five masks of [segment_knee] *)

Lemma generate_random_mask_spec (o e : ndarray Z) (rv : float)
  (g g' : RandomState) (out : ndarray Z) :
  generate_random_mask o e rv g = Ok (out, g') ->
  shape out = shape o /\ stream g' = stream g /\ exclusive_labels out.
Proof.
  intros H. pose proof (generate_random_mask_inv _ _ _ _ _ _ H) as Hs.
  destruct (generate_random_mask_Ok o e rv g Hs) as (out' & g'' & E & Hsh & D).
  rewrite E in H. inversion H; subst out' g''. clear H.
  split; [exact Hsh |]. split.
  - unfold generate_random_mask in E.
    destruct (shape_eqb (shape o) (shape e)); [| discriminate E].
    unfold fold_left in E.
    remember (randomize_label o e (Float64.py_max 0 (Float64.py_min 1 rv))
                (zeros_like o, g) 1) as r1 eqn:E1.
    destruct r1 as [res1 g1].
    remember (randomize_label o e (Float64.py_max 0 (Float64.py_min 1 rv))
                (res1, g1) 2) as r2 eqn:E2.
    assert (Er : r2 = (out, g')) by congruence.
    assert (Hg' : g' = snd r2) by (rewrite Er; reflexivity).
    assert (Hg1 : g1 = snd (randomize_label o e
                    (Float64.py_max 0 (Float64.py_min 1 rv)) (zeros_like o, g) 1))
      by (rewrite <- E1; reflexivity).
    rewrite Hg', E2, randomize_label_stream, Hg1, randomize_label_stream.
    reflexivity.
  - intros p. split.
    + rewrite D. unfold is_label.
      destruct (_ || _); [auto |]. destruct (_ || _); auto.
    + simpl. rewrite D.
      destruct (_ || _); [reflexivity |]. destruct (_ || _); reflexivity.
Qed.

(** Between the original and an expanded volume that contains it. *)
Lemma randomized_between (o e : ndarray Z) (rv : float) (g g' : RandomState)
  (out : ndarray Z) :
  generate_random_mask o e rv g = Ok (out, g') ->
  contains_labels e o ->
  forall p, in_bounds (shape o) p = true ->
    forall label, label = 1 \/ label = 2 ->
      (data o p = label -> data out p = label) /\
      (data out p = label -> data e p = label).
Proof.
  intros H Hc. pose proof (generate_random_mask_inv _ _ _ _ _ _ H) as Hs.
  destruct (generate_random_mask_Ok o e rv g Hs) as (out' & g'' & E & _ & D).
  rewrite E in H. inversion H; subst out' g''. clear H.
  intros p Hb label Hl. rewrite D. destruct (Hc p Hb) as [C1 C2].
  destruct (data o p =? 2) eqn:O2;
    [apply Z.eqb_eq in O2 | apply Z.eqb_neq in O2]; simpl orb.
  - destruct Hl; subst label; lia.
  - destruct (kept o e _ _ 2 p) eqn:K2.
    + apply kept_ring in K2. destruct Hl; subst label; lia.
    + destruct (data o p =? 1) eqn:O1;
        [apply Z.eqb_eq in O1 | apply Z.eqb_neq in O1]; simpl orb.
      * destruct Hl; subst label; lia.
      * destruct (kept o e _ _ 1 p) eqn:K1.
        -- apply kept_ring in K1. destruct Hl; subst label; lia.
        -- destruct Hl; subst label; lia.
Qed.

Lemma expand_segmentation_spec (seg out : ndarray Z) (voxel_sizes : voxel_spacing)
  (expansion_mm : float) :
  expand_segmentation seg voxel_sizes expansion_mm = Ok out ->
  shape out = shape seg /\ exclusive_labels out /\ contains_labels out seg /\
  forall label, label = 1 \/ label = 2 ->
    (forall q, in_bounds (shape seg) q = true -> data seg q <> label) ->
    forall p, data out p <> label.
Proof.
  unfold expand_segmentation. intros H.
  apply bind_Ok_inv in H. destruct H as [[[kx ky] kz] [Hk H]].
  inversion H; subst out. clear H.
  destruct (kernel_sizes_pos _ _ _ _ _ Hk) as (Hx & Hy & Hz).
  split; [reflexivity |]. split; [apply painted_exclusive |].
  split; [apply expand_with_kernel_contains; assumption |].
  intros label Hl Hn. apply expand_with_kernel_no_label; assumption.
Qed.

(** The volume that [segment_knee] keeps as the original segmentation: the
    postprocessed slice segmentation, or the fallback segmentation. *)
Lemma original_segmentation_spec {lib : ImageLib} (volume : ndarray float)
  (start_slice end_slice : Z) (vol orig : ndarray Z) (fallback : bool) :
  segment_slices volume start_slice end_slice = Ok vol ->
  (if fallback then fallback_segmentation volume start_slice end_slice
   else Ok (apply_3d_postprocessing vol)) = Ok orig ->
  shape orig = shape volume /\ exclusive_labels orig.
Proof.
  intros Hv H. destruct fallback.
  - unfold fallback_segmentation in H.
    apply bind_Ok_inv in H. destruct H as [fb [_ H]].
    inversion H. split; [reflexivity | apply painted_exclusive].
  - inversion H. split; [| apply painted_exclusive].
    unfold segment_slices in Hv.
    apply (fold_painted (segment_slice_into volume)) in Hv;
      [| intros v i v'; apply segment_slice_into_painted].
    destruct Hv as [Hs _]. exact Hs.
Qed.

(** X15: the five masks of [segment_knee].  When the pipeline returns, each
    of the five masks has the shape of the intensity volume and gives each
    voxel one label among 0, 1 and 2; both expanded masks hold every
    labelled voxel of the original mask under the same label; for the labels
    1 and 2 the region of the first random mask lies between the regions of
    the original and of the 2 mm mask, and the region of the second random
    mask between those of the original and of the 4 mm mask; the random
    generator is only advanced. *)
Theorem segment_knee_masks {lib : ImageLib} (volume : ndarray float)
  (voxel_sizes : voxel_spacing) (g g' : RandomState) (v : mask_variants) :
  segment_knee volume voxel_sizes g = Ok (v, g') ->
  (forall m, In m (map snd (masks v)) ->
     shape m = shape volume /\ exclusive_labels m) /\
  contains_labels (expanded_2mm v) (original v) /\
  contains_labels (expanded_4mm v) (original v) /\
  (forall p, in_bounds (shape volume) p = true ->
     forall label, label = 1 \/ label = 2 ->
       (data (original v) p = label -> data (random_1 v) p = label) /\
       (data (random_1 v) p = label -> data (expanded_2mm v) p = label) /\
       (data (original v) p = label -> data (random_2 v) p = label) /\
       (data (random_2 v) p = label -> data (expanded_4mm v) p = label)) /\
  stream g' = stream g.
Proof.
  unfold segment_knee. intros H.
  apply bind_Ok_inv in H. destruct H as [start_slice [_ H]].
  apply bind_Ok_inv in H. destruct H as [end_slice [_ H]].
  apply bind_Ok_inv in H. destruct H as [vol [Hvol H]].
  apply bind_Ok_inv in H. destruct H as [orig [Horig H]].
  apply bind_Ok_inv in H. destruct H as [e2 [He2 H]].
  apply bind_Ok_inv in H. destruct H as [e4 [He4 H]].
  apply bind_Ok_inv in H. destruct H as [[m1 g1] [Hr1 H]].
  apply bind_Ok_inv in H. destruct H as [[m2 g2] [Hr2 H]].
  cbn [fst snd] in H, Hr2. inversion H; subst v g'. clear H.
  cbn [original expanded_2mm expanded_4mm random_1 random_2 masks map snd].
  destruct (original_segmentation_spec _ _ _ _ _ _ Hvol Horig) as [So Xo].
  destruct (expand_segmentation_spec _ _ _ _ He2) as (S2 & X2 & C2 & _).
  destruct (expand_segmentation_spec _ _ _ _ He4) as (S4 & X4 & C4 & _).
  destruct (generate_random_mask_spec _ _ _ _ _ _ Hr1) as (Sr1 & G1 & Xr1).
  destruct (generate_random_mask_spec _ _ _ _ _ _ Hr2) as (Sr2 & G2 & Xr2).
  split; [| split; [exact C2 | split; [exact C4 | split]]].
  - intros m [<- | [<- | [<- | [<- | [<- | []]]]]]; split;
      try assumption; congruence.
  - intros p Hb label Hl. rewrite <- So in Hb.
    destruct (randomized_between _ _ _ _ _ _ Hr1 C2 p Hb label Hl) as [A1 B1].
    destruct (randomized_between _ _ _ _ _ _ Hr2 C4 p Hb label Hl) as [A2 B2].
    repeat split; assumption.
  - congruence.
Qed.

Lemma segment_knee_masks_witness :
  exists v g',
    @segment_knee identity_lib (five_slices 300) (1, 1, 1)%float half_draws
      = Ok (v, g') /\
    (forall m, In m (map snd (masks v)) ->
       shape m = shape (five_slices 300) /\ exclusive_labels m) /\
    contains_labels (expanded_2mm v) (original v) /\
    contains_labels (expanded_4mm v) (original v) /\
    (forall p, in_bounds (shape (five_slices 300)) p = true ->
       forall label, label = 1 \/ label = 2 ->
         (data (original v) p = label -> data (random_1 v) p = label) /\
         (data (random_1 v) p = label -> data (expanded_2mm v) p = label) /\
         (data (original v) p = label -> data (random_2 v) p = label) /\
         (data (random_2 v) p = label -> data (expanded_4mm v) p = label)) /\
    stream g' = stream half_draws.
Proof.
  destruct (@segment_knee identity_lib (five_slices 300) (1, 1, 1)%float
              half_draws) as [[v g'] | e] eqn:E.
  - exists v, g'. split; [reflexivity |].
    apply (@segment_knee_masks identity_lib (five_slices 300) (1, 1, 1)%float
             half_draws g' v E).
  - assert (F : match @segment_knee identity_lib (five_slices 300)
                        (1, 1, 1)%float half_draws with
                | Ok _ => true
                | Raise _ => false
                end = true) by (vm_compute; reflexivity).
    rewrite E in F. discriminate F.
Defined.

(** ** The landmarks of the five masks *)

Lemma segment_knee_stages {lib : ImageLib} (volume : ndarray float)
  (voxel_sizes : voxel_spacing) (g g' : RandomState) (v : mask_variants) :
  segment_knee volume voxel_sizes g = Ok (v, g') ->
  expand_segmentation (original v) voxel_sizes 2 = Ok (expanded_2mm v) /\
  expand_segmentation (original v) voxel_sizes 4 = Ok (expanded_4mm v) /\
  exists g1,
    generate_random_mask (original v) (expanded_2mm v) 0.65 g
      = Ok (random_1 v, g1) /\
    generate_random_mask (original v) (expanded_4mm v) 0.40 g1
      = Ok (random_2 v, g').
Proof.
  unfold segment_knee. intros H.
  apply bind_Ok_inv in H. destruct H as [start_slice [_ H]].
  apply bind_Ok_inv in H. destruct H as [end_slice [_ H]].
  apply bind_Ok_inv in H. destruct H as [vol [_ H]].
  apply bind_Ok_inv in H. destruct H as [orig [_ H]].
  apply bind_Ok_inv in H. destruct H as [e2 [He2 H]].
  apply bind_Ok_inv in H. destruct H as [e4 [He4 H]].
  apply bind_Ok_inv in H. destruct H as [[m1 g1] [Hr1 H]].
  apply bind_Ok_inv in H. destruct H as [[m2 g2] [Hr2 H]].
  cbn [fst snd] in H, Hr2. inversion H; subst v g'. clear H.
  cbn [original expanded_2mm expanded_4mm random_1 random_2].
  split; [exact He2 |]. split; [exact He4 |].
  exists g1. split; assumption.
Qed.

Lemma find_tibia_lowest_points_no_tibia (seg : ndarray Z)
  (voxel_sizes : voxel_spacing) :
  no_tibia seg -> find_tibia_lowest_points seg voxel_sizes = Ok no_landmarks.
Proof.
  intros Hn. unfold find_tibia_lowest_points.
  replace (count_nonzero (eq_scalar seg 1) =? 0) with true; [reflexivity |].
  symmetry. apply Z.eqb_eq. apply count_nonzero_zero.
  intros p Hb. simpl. apply Z.eqb_neq. apply Hn. exact Hb.
Qed.

Lemma no_tibia_forallb (seg : ndarray Z) :
  forallb (fun p => negb (data seg p =? 1)) (ndindex (shape seg)) = true ->
  no_tibia seg.
Proof.
  intros H p Hb. rewrite forallb_forall in H.
  apply In_ndindex in Hb. specialize (H p Hb).
  apply negb_true_iff in H. apply Z.eqb_neq. exact H.
Qed.

(** X16: a pipeline without tibia finds no landmark.  When [segment_knee]
    returns and the original mask has no tibia voxel, none of the five masks
    has one, and the loop over the masks returns, with the four landmarks of
    every mask set to [None]. *)
Theorem no_tibia_pipeline {lib : ImageLib} (volume : ndarray float)
  (voxel_sizes : voxel_spacing) (g g' : RandomState) (v : mask_variants) :
  segment_knee volume voxel_sizes g = Ok (v, g') ->
  no_tibia (original v) ->
  (forall m, In m (map snd (masks v)) -> no_tibia m) /\
  tibia_points_of_masks v voxel_sizes
  = Ok [(Original, no_landmarks); (Expanded_2mm, no_landmarks);
        (Expanded_4mm, no_landmarks); (Random_1, no_landmarks);
        (Random_2, no_landmarks)].
Proof.
  intros H Hn.
  destruct (segment_knee_stages _ _ _ _ _ H) as (He2 & He4 & g1 & Hr1 & Hr2).
  destruct (expand_segmentation_spec _ _ _ _ He2) as (S2 & _ & C2 & N2).
  destruct (expand_segmentation_spec _ _ _ _ He4) as (S4 & _ & C4 & N4).
  destruct (generate_random_mask_spec _ _ _ _ _ _ Hr1) as (Sr1 & _ & _).
  destruct (generate_random_mask_spec _ _ _ _ _ _ Hr2) as (Sr2 & _ & _).
  assert (M2 : no_tibia (expanded_2mm v)).
  { intros p _. apply (N2 1); [left; reflexivity | exact Hn]. }
  assert (M4 : no_tibia (expanded_4mm v)).
  { intros p _. apply (N4 1); [left; reflexivity | exact Hn]. }
  assert (R1 : no_tibia (random_1 v)).
  { intros p Hb E. rewrite Sr1 in Hb.
    destruct (randomized_between _ _ _ _ _ _ Hr1 C2 p Hb 1 ltac:(left; reflexivity))
      as [_ B]. rewrite <- S2 in Hb. exact (M2 p Hb (B E)). }
  assert (R2 : no_tibia (random_2 v)).
  { intros p Hb E. rewrite Sr2 in Hb.
    destruct (randomized_between _ _ _ _ _ _ Hr2 C4 p Hb 1 ltac:(left; reflexivity))
      as [_ B]. rewrite <- S4 in Hb. exact (M4 p Hb (B E)). }
  split.
  - cbn [masks map snd].
    intros m [<- | [<- | [<- | [<- | [<- | []]]]]]; assumption.
  - unfold tibia_points_of_masks, masks. cbn [fold_left fst snd bind].
    rewrite !find_tibia_lowest_points_no_tibia by assumption.
    reflexivity.
Qed.

Lemma no_tibia_pipeline_witness :
  exists v g',
    @segment_knee identity_lib (five_slices 0) (1, 1, 1)%float half_draws
      = Ok (v, g') /\
    no_tibia (original v) /\
    (forall m, In m (map snd (masks v)) -> no_tibia m) /\
    tibia_points_of_masks v (1, 1, 1)%float
    = Ok [(Original, no_landmarks); (Expanded_2mm, no_landmarks);
          (Expanded_4mm, no_landmarks); (Random_1, no_landmarks);
          (Random_2, no_landmarks)].
Proof.
  destruct (@segment_knee identity_lib (five_slices 0) (1, 1, 1)%float
              half_draws) as [[v g'] | e] eqn:E.
  - exists v, g'. split; [reflexivity |].
    assert (N : no_tibia (original v)).
    { apply no_tibia_forallb.
      replace v with
        (match @segment_knee identity_lib (five_slices 0) (1, 1, 1)%float
                 half_draws with
         | Ok r => fst r
         | Raise _ => v
         end) by (rewrite E; reflexivity).
      vm_compute. reflexivity. }
    split; [exact N |].
    apply (@no_tibia_pipeline identity_lib (five_slices 0) (1, 1, 1)%float
             half_draws g' v E N).
  - assert (F : match @segment_knee identity_lib (five_slices 0)
                        (1, 1, 1)%float half_draws with
                | Ok _ => true
                | Raise _ => false
                end = true) by (vm_compute; reflexivity).
    rewrite E in F. discriminate F.
Defined.

(** ** A spacing of zero *)

Lemma is_zero_spec (v : float) : is_zero v -> exists s, Prim2SF v = S754_zero s.
Proof.
  unfold is_zero. rewrite FloatAxioms.eqb_spec.
  change (Prim2SF 0) with (S754_zero false).
  destruct (Prim2SF v) as [s | s | | s m e]; try discriminate.
  - eauto.
  - destruct s; discriminate.
  - destruct s; discriminate.
Qed.

(** A quotient by zero is an infinity or a NaN. *)
Lemma div_by_zero (x v : float) :
  is_zero v ->
  Prim2SF (x / v) = S754_nan \/ exists s, Prim2SF (x / v) = S754_infinity s.
Proof.
  intros Hv. destruct (is_zero_spec v Hv) as [s Es].
  rewrite FloatAxioms.div_spec, Es.
  destruct (Prim2SF x) as [sx | sx | | sx m e]; simpl; eauto.
Qed.

(** A product by zero, divided by that zero, is a NaN. *)
Lemma mul_div_zero (a v : float) :
  is_zero v -> Prim2SF ((a * v) / v) = S754_nan.
Proof.
  intros Hv. destruct (is_zero_spec v Hv) as [s Es].
  rewrite FloatAxioms.div_spec, FloatAxioms.mul_spec, Es.
  destruct (Prim2SF a) as [sa | sa | | sa m e]; reflexivity.
Qed.

Lemma int_trunc_nan (x : float) :
  Prim2SF x = S754_nan -> Float64.int_trunc x = Raise ValueError.
Proof. unfold Float64.int_trunc. intros ->. reflexivity. Qed.

Lemma int_trunc_raises (x : float) (e : exn) :
  Float64.int_trunc x = Raise e -> e = ValueError \/ e = OverflowError.
Proof.
  unfold Float64.int_trunc. destruct (Prim2SF x); intros H; inversion H; auto.
Qed.

Lemma kernel_size_raises (expansion_mm vs : float) (e : exn) :
  kernel_size expansion_mm vs = Raise e -> e = ValueError \/ e = OverflowError.
Proof.
  unfold kernel_size, Float64.int_ceil.
  destruct (Prim2SF (expansion_mm / vs)); simpl; intros H; inversion H; auto.
Qed.

Lemma kernel_size_zero_spacing (expansion_mm vs : float) :
  is_zero vs -> exists e, kernel_size expansion_mm vs = Raise e.
Proof.
  intros Hv. unfold kernel_size, Float64.int_ceil.
  destruct (div_by_zero expansion_mm vs Hv) as [E | [s E]]; rewrite E; simpl; eauto.
Qed.

Lemma kernel_sizes_zero_spacing (vx vy vz expansion_mm : float) :
  is_zero vx \/ is_zero vy \/ is_zero vz ->
  kernel_sizes (vx, vy, vz) expansion_mm = Raise ValueError \/
  kernel_sizes (vx, vy, vz) expansion_mm = Raise OverflowError.
Proof.
  intros Hz. unfold kernel_sizes.
  destruct (kernel_size expansion_mm vx) as [kx | ex] eqn:Ex.
  - destruct (kernel_size expansion_mm vy) as [ky | ey] eqn:Ey.
    + destruct (kernel_size expansion_mm vz) as [kz | ez] eqn:Ez.
      * exfalso. destruct Hz as [Hz | [Hz | Hz]];
          destruct (kernel_size_zero_spacing expansion_mm _ Hz) as [e E];
          congruence.
      * destruct (kernel_size_raises _ _ _ Ez); subst ez; cbn [bind]; auto.
    + destruct (kernel_size_raises _ _ _ Ey); subst ey; cbn [bind]; auto.
  - destruct (kernel_size_raises _ _ _ Ex); subst ex; cbn [bind]; auto.
Qed.








Lemma to_voxel_zero_spacing (vx vy vz : float) (p : index) :
  is_zero vx \/ is_zero vy \/ is_zero vz ->
  exists e, to_voxel (vx, vy, vz) (to_mm (vx, vy, vz) p) = Raise e /\
            (e = ValueError \/ e = OverflowError) /\
            (is_zero vx -> e = ValueError).
Proof.
  intros Hz. destruct p as [[i j] k]. unfold to_voxel, to_mm.
  destruct (Float64.int_trunc (Float64.of_int i * vx / vx)) as [a | e] eqn:Ea.
  - cbn [bind].
    destruct (Float64.int_trunc (Float64.of_int j * vy / vy)) as [b | e] eqn:Eb.
    + cbn [bind].
      destruct (Float64.int_trunc (Float64.of_int k * vz / vz)) as [c | e] eqn:Ec.
      * exfalso. destruct Hz as [Hz | [Hz | Hz]].
        -- rewrite (int_trunc_nan _ (mul_div_zero _ _ Hz)) in Ea. discriminate Ea.
        -- rewrite (int_trunc_nan _ (mul_div_zero _ _ Hz)) in Eb. discriminate Eb.
        -- rewrite (int_trunc_nan _ (mul_div_zero _ _ Hz)) in Ec. discriminate Ec.
      * cbn [bind]. exists e. split; [reflexivity |].
        split; [exact (int_trunc_raises _ _ Ec) |].
        intros Hx. rewrite (int_trunc_nan _ (mul_div_zero _ _ Hx)) in Ea.
        discriminate Ea.
    + cbn [bind]. exists e. split; [reflexivity |].
      split; [exact (int_trunc_raises _ _ Eb) |].
      intros Hx. rewrite (int_trunc_nan _ (mul_div_zero _ _ Hx)) in Ea.
      discriminate Ea.
  - cbn [bind]. exists e. split; [reflexivity |].
    split; [exact (int_trunc_raises _ _ Ea) |].
    intros Hx. rewrite (int_trunc_nan _ (mul_div_zero _ _ Hx)) in Ea.
    inversion Ea. reflexivity.
Qed.

Lemma lowest_In (points : list point_mm) (pt : point_mm) :
  lowest points = Some pt -> In pt points.
Proof.
  destruct points as [|q points]; [discriminate |].
  assert (Hn : forall n, In (nth n (q :: points) q) (q :: points)).
  { intros n. destruct (nth_in_or_default n (q :: points) q) as [Hin | Hd].
    - exact Hin.
    - rewrite Hd. left. reflexivity. }
  unfold lowest. intros H. injection H as E. rewrite <- E. apply Hn.
Qed.

(** The voxel form of the lowest point of a side, for a spacing of zero. *)
Lemma to_voxel_opt_zero_spacing (seg : ndarray Z) (vx vy vz : float)
  (f : point_mm -> bool) :
  is_zero vx \/ is_zero vy \/ is_zero vz ->
  (filter f (tibia_points seg (vx, vy, vz)) = [] /\
   to_voxel_opt (vx, vy, vz) (lowest (filter f (tibia_points seg (vx, vy, vz))))
   = Ok None) \/
  (filter f (tibia_points seg (vx, vy, vz)) <> [] /\
   exists e,
     to_voxel_opt (vx, vy, vz) (lowest (filter f (tibia_points seg (vx, vy, vz))))
     = Raise e).
Proof.
  intros Hz.
  destruct (lowest (filter f (tibia_points seg (vx, vy, vz)))) as [pt |] eqn:El.
  - right. split; [intros E; rewrite E in El; discriminate El |].
    apply lowest_In in El. apply filter_In in El. destruct El as [Hin _].
    apply In_tibia_points_inv in Hin. destruct Hin as (p & _ & _ & ->).
    destruct (to_voxel_zero_spacing vx vy vz p Hz) as (e & E & _).
    exists e. unfold to_voxel_opt. rewrite E. reflexivity.
  - left. split; [apply lowest_None; exact El | reflexivity].
Qed.

(** X18: a spacing of zero on an axis gives no landmark.  The round trip of
    a voxel through millimetres divides zero (or a NaN) by zero, and
    [int(nan)] raises: [ValueError] when the X spacing is zero, [ValueError]
    or [OverflowError] otherwise.  So whenever the finder returns for such a
    spacing, the four results are [None]; and on a volume with a tibia voxel,
    when the mean X and the X coordinates are not NaN, the finder raises. *)
Theorem zero_spacing_no_landmark (seg : ndarray Z) (vx vy vz : float) :
  is_zero vx \/ is_zero vy \/ is_zero vz ->
  (forall p, exists e,
     to_voxel (vx, vy, vz) (to_mm (vx, vy, vz) p) = Raise e /\
     (e = ValueError \/ e = OverflowError) /\
     (is_zero vx -> e = ValueError)) /\
  (forall r, find_tibia_lowest_points seg (vx, vy, vz) = Ok r ->
             r = no_landmarks) /\
  ((exists p, in_bounds (shape seg) p = true /\ data seg p = 1) ->
   Float64.is_nan (center_x seg (vx, vy, vz)) = false ->
   (forall pt, In pt (tibia_points seg (vx, vy, vz)) ->
               Float64.is_nan (px pt) = false) ->
   exists e, find_tibia_lowest_points seg (vx, vy, vz) = Raise e).
Proof.
  intros Hz. split; [intros p; apply to_voxel_zero_spacing; exact Hz |].
  pose proof (to_voxel_opt_zero_spacing seg vx vy vz
                (fun pt => PrimFloat.ltb (px pt) (center_x seg (vx, vy, vz))) Hz)
    as HL.
  pose proof (to_voxel_opt_zero_spacing seg vx vy vz
                (fun pt => PrimFloat.leb (center_x seg (vx, vy, vz)) (px pt)) Hz)
    as HM.
  split.
  - intros r. unfold find_tibia_lowest_points.
    destruct (count_nonzero (eq_scalar seg 1) =? 0); [intros H; inversion H; reflexivity |].
    cbv zeta.
    destruct HL as [[EL VL] | [_ [e VL]]]; rewrite VL; [| discriminate].
    destruct HM as [[EM VM] | [_ [e VM]]]; rewrite VM; [| discriminate].
    cbn [bind]. rewrite EL, EM. intros H. inversion H. reflexivity.
  - intros (p & Hb & Hp) Hc Hx. unfold find_tibia_lowest_points.
    destruct (count_nonzero (eq_scalar seg 1) =? 0) eqn:E0.
    + exfalso. apply Z.eqb_eq in E0.
      pose proof (proj1 (count_nonzero_zero _) E0 p Hb) as F.
      simpl in F. apply Z.eqb_neq in F. contradiction.
    + cbv zeta.
      destruct HL as [[EL VL] | [_ [e VL]]]; rewrite VL; [| cbn [bind]; eauto].
      destruct HM as [[EM VM] | [_ [e VM]]]; rewrite VM; [| cbn [bind]; eauto].
      exfalso. pose proof (In_tibia_points seg (vx, vy, vz) p Hb Hp) as Hin.
      pose proof (proj1 (filter_nil_iff _ _) EL _ Hin) as NL.
      pose proof (proj1 (filter_nil_iff _ _) EM _ Hin) as NM.
      cbv beta in NL, NM.
      rewrite (not_below_at_or_above _ _ (Hx _ Hin) Hc NL) in NM.
      discriminate NM.
Qed.

Lemma zero_spacing_no_landmark_witness :
  (forall p, exists e,
     to_voxel (0, 1, 1)%float (to_mm (0, 1, 1)%float p) = Raise e /\
     (e = ValueError \/ e = OverflowError) /\
     (is_zero 0 -> e = ValueError)) /\
  (forall r, find_tibia_lowest_points tibia_voxel_3 (0, 1, 1)%float = Ok r ->
             r = no_landmarks) /\
  ((exists p, in_bounds (shape tibia_voxel_3) p = true /\
              data tibia_voxel_3 p = 1) ->
   Float64.is_nan (center_x tibia_voxel_3 (0, 1, 1)%float) = false ->
   (forall pt, In pt (tibia_points tibia_voxel_3 (0, 1, 1)%float) ->
               Float64.is_nan (px pt) = false) ->
   exists e, find_tibia_lowest_points tibia_voxel_3 (0, 1, 1)%float = Raise e).
Proof.
  apply (zero_spacing_no_landmark tibia_voxel_3 0 1 1).
  left. reflexivity.
Defined.
